(** * Promises and the [All] combinator of [code.nkcmr.net/async]

    A shallow embedding of [async.go].  The promise object, its two
    implementations ([syncPromise] and [rp]) and their methods are
    translated field by field.  Goroutines are modelled as small program
    counters over a shared store, and a schedule (a list of events) says
    which goroutine moves next; every interleaving of the source is a
    schedule of the model. *)

From stdpp Require Import base list strings.
From Stdlib Require Import ZArith Lia.

(** ** Errors, channels and contexts *)

(** A non-nil Go [error] value.  The library itself never builds one; the
    ones it hands back come from the context package or from the caller's
    function. *)
Inductive goerr : Type :=
  | Canceled                      (* context.Canceled *)
  | DeadlineExceeded              (* context.DeadlineExceeded *)
  | errors_New (msg : string).    (* errors.New(msg) *)

(** Go's [error] interface: [None] is [nil]. *)
Definition error : Type := option goerr.

(** A [chan struct{}] on which nothing is ever sent: all that can be
    observed is whether it has been closed. *)
Inductive chan : Type := Open | Closed.

(** A receive from such a channel can proceed exactly when it is closed. *)
Definition ready (c : chan) : bool :=
  match c with Open => false | Closed => true end.

(** [close(c)]: closing a closed channel panics ([None]). *)
Definition close (c : chan) : option chan :=
  match c with Open => Some Closed | Closed => None end.

(** What [Await] can see of a [context.Context]: either it is still live
    ([Done()] not closed, [Err()] nil) or it has fired with a reason
    ([Done()] closed, [Err()] that reason). *)
Inductive Ctx : Type := Live | Fired (reason : goerr).

Definition ctx_Done (c : Ctx) : chan :=
  match c with Live => Open | Fired _ => Closed end.

Definition ctx_Err (c : Ctx) : error :=
  match c with Live => None | Fired e => Some e end.

(** The [cancel] function returned by [context.WithCancel]: the first
    cancellation wins, later ones do nothing. *)
Definition cancel (c : Ctx) : Ctx :=
  match c with Live => Fired Canceled | Fired e => Fired e end.

(** The parent context fires with reason [e]; the derived context follows
    unless it was cancelled before. *)
Definition parent_done (e : goerr) (c : Ctx) : Ctx :=
  match c with Live => Fired e | Fired e' => Fired e' end.

(** What a goroutine can do when it is scheduled. *)
Inductive outcome (A : Type) : Type :=
  | Wait                 (* blocked, or finished: nothing happens *)
  | Crash                (* run-time panic *)
  | Step (a : A).
Arguments Wait {A}.
Arguments Crash {A}.
Arguments Step {A} a.

(** How many elements of a list are counted by [f]. *)
Definition tally {A : Type} (f : A → nat) (l : list A) : nat := sum_list (f <$> l).

Section Promise.

(** The type parameter of [Promise[T]] and its zero value ([var zerov T]). *)
Variable T : Type.
Variable zerov : T.

(** ** Data model *)

Record result : Type := mkResult { value : T; err : error }.

(** [result[T]{value: v}] and [result[T]{err: e}]: the field left out
    takes its zero value. *)
Definition result_value (v : T) : result := {| value := v; err := None |}.
Definition result_err (e : error) : result := {| value := zerov; err := e |}.
Definition result_zero : result := {| value := zerov; err := None |}.

Record syncPromise : Type := mkSync {
  s_settled : Z;        (* settled int32, accessed atomically *)
  s_done : chan;        (* done chan struct{} *)
  s_result : result     (* result result[T] *)
}.

Record rp : Type := mkRp { r_result : result }.

(** [&syncPromise[T]{done: make(chan struct{})}] *)
Definition fresh : syncPromise :=
  {| s_settled := 0%Z; s_done := Open; s_result := result_zero |}.

(** ** The atomic actions of [resolve] and [reject] *)

(** [atomic.CompareAndSwapInt32(&s.settled, 0, 1)] *)
Definition cas_settled (s : syncPromise) : bool * syncPromise :=
  if (s_settled s =? 0)%Z
  then (true, {| s_settled := 1%Z; s_done := s_done s; s_result := s_result s |})
  else (false, s).

(** [s.result = r] *)
Definition store_result (r : result) (s : syncPromise) : syncPromise :=
  {| s_settled := s_settled s; s_done := s_done s; s_result := r |}.

(** [close(s.done)] *)
Definition close_done (s : syncPromise) : option syncPromise :=
  match close (s_done s) with
  | Some c => Some {| s_settled := s_settled s; s_done := c; s_result := s_result s |}
  | None => None
  end.

(** ** Methods of [syncPromise], run without interference *)

(** [Settled]: [atomic.LoadInt32(&s.settled) == 1]. *)
Definition Settled (s : syncPromise) : bool := (s_settled s =? 1)%Z.

(** The body shared by [resolve] and [reject]. *)
Definition settle (r : result) (s : syncPromise) : option syncPromise :=
  let (won, s1) := cas_settled s in
  if won then close_done (store_result r s1) else Some s1.

Definition resolve (v : T) (s : syncPromise) : option syncPromise :=
  settle (result_value v) s.

Definition reject (e : error) (s : syncPromise) : option syncPromise :=
  settle (result_err e) s.

(** [Await]: a [select] over [ctx.Done()] and [s.done].  [None] as the
    first component means that no case can proceed and the caller blocks.
    When both cases can proceed Go picks one at random: [pick_done] is
    that choice.  The receiver is a pointer, so the promise is threaded
    through and returned. *)
Definition Await (ctx : Ctx) (pick_done : bool) (s : syncPromise)
  : option (T * error) * syncPromise :=
  match ready (ctx_Done ctx), ready (s_done s) with
  | false, false => (None, s)
  | true, false => (Some (zerov, ctx_Err ctx), s)
  | false, true => (Some (value (s_result s), err (s_result s)), s)
  | true, true =>
      if pick_done
      then (Some (value (s_result s), err (s_result s)), s)
      else (Some (zerov, ctx_Err ctx), s)
  end.

(** ** The pre-settled promise [rp] *)

Definition rp_Settled (r : rp) : bool := true.

Definition rp_Await (ctx : Ctx) (r : rp) : option (T * error) * rp :=
  (Some (value (r_result r), err (r_result r)), r).

Definition Resolve (v : T) : rp := {| r_result := result_value v |}.
Definition Reject (e : error) : rp := {| r_result := result_err e |}.

(** ** Goroutines that settle a promise

    [resolve] and [reject] are three separate actions (the
    compare-and-swap, the store of the result, the close of the channel)
    and other goroutines can run between them.  A [stage] is the program
    counter of one goroutine working on a promise. *)

Inductive stage : Type :=
  | CallFn (ret : option (T * error))
      (* the goroutine of NewPromise, before [fn] has returned;
         [ret] is what [fn] returns, [None] when it never does *)
  | AtCas (r : result)    (* in resolve/reject, before the compare-and-swap *)
  | AtStore (r : result)  (* the swap succeeded; before [s.result = r] *)
  | AtClose               (* before [close(s.done)] *)
  | Finished.

(** [if err != nil { c.reject(err) } else { c.resolve(v) }] *)
Definition classify (ret : T * error) : result :=
  match snd ret with
  | Some e => result_err (Some e)
  | None => result_value (fst ret)
  end.

Definition stage_step (g : stage) (s : syncPromise)
  : outcome (stage * syncPromise) :=
  match g with
  | CallFn None => Wait
  | CallFn (Some ret) => Step (AtCas (classify ret), s)
  | AtCas r =>
      let (won, s1) := cas_settled s in
      Step (if won then AtStore r else Finished, s1)
  | AtStore r => Step (AtClose, store_result r s)
  | AtClose =>
      match close_done s with
      | Some s1 => Step (Finished, s1)
      | None => Crash
      end
  | Finished => Wait
  end.

(** A work-backed promise together with the goroutines that hold a
    pointer to it and are about to settle it. *)
Record cell : Type := mkCell { obj : syncPromise; calls : list stage }.

(** Goroutine [k] of the cell takes its next action. *)
Definition cell_step (k : nat) (c : cell) : outcome cell :=
  match calls c !! k with
  | None => Wait
  | Some g =>
      match stage_step g (obj c) with
      | Step (g1, s1) => Step {| obj := s1; calls := <[k := g1]> (calls c) |}
      | Wait => Wait
      | Crash => Crash
      end
  end.

(** A run of a cell under a schedule of goroutine indices; [None] is a
    panic. *)
Fixpoint cell_run (sched : list nat) (c : cell) : option cell :=
  match sched with
  | [] => Some c
  | k :: rest =>
      match cell_step k c with
      | Step c1 => cell_run rest c1
      | Wait => cell_run rest c
      | Crash => None
      end
  end.

(** [NewPromise(fn)]: the promise is returned pending and one goroutine
    is started on it. *)
Definition NewPromise (ret : option (T * error)) : cell :=
  {| obj := fresh; calls := [CallFn ret] |}.

(** A fresh promise on which the calls [rs] to resolve/reject (each given
    by the result it would store) have been started concurrently. *)
Definition racing (rs : list result) : cell :=
  {| obj := fresh; calls := AtCas <$> rs |}.

(** ** The [Promise] interface *)

Inductive Promise : Type :=
  | Backed (c : cell)    (* *syncPromise[T], with its goroutines *)
  | Pre (r : rp).        (* *rp[T] *)

Definition Promise_Settled (p : Promise) : bool :=
  match p with
  | Backed c => Settled (obj c)
  | Pre r => rp_Settled r
  end.

Definition Promise_Await (ctx : Ctx) (pick_done : bool) (p : Promise)
  : option (T * error) * Promise :=
  match p with
  | Backed c =>
      let (o, s1) := Await ctx pick_done (obj c) in
      (o, Backed {| obj := s1; calls := calls c |})
  | Pre r =>
      let (o, r1) := rp_Await ctx r in (o, Pre r1)
  end.

(** ** [All]

    The store [heap] holds the promise objects; a pointer is an index
    into it, and [promises] is the slice handed to [All]. *)

Inductive waiter : Type :=
  | NotStarted
  | Awaiting (p : nat)      (* in [p.Await(ctx)] *)
  | Sending (e : error)     (* [out[i]] assigned; before [errc <- err] *)
  | Exited.

Inductive mainpc : Type :=
  | Spawning (i : nat)      (* [for i := range out]: next waiter to start *)
  | Receiving (i : nat)     (* second loop, [i] errors drained, all nil *)
  | Returned (vals : option (list T)) (e : error).

Record world : Type := mkWorld {
  heap : list Promise;
  promises : list nat;
  dctx : Ctx;               (* the context derived by WithCancel *)
  out : list T;
  errc : list error;        (* contents of the buffered channel, oldest first *)
  waiters : list waiter;
  pc : mainpc
}.

(** The state in which [All(ctx, promises)] starts its first loop:
    [WithCancel] has derived the context, [out] and [errc] are made. *)
Definition All_init (ctx : Ctx) (h : list Promise) (ps : list nat) : world :=
  {| heap := h; promises := ps; dctx := ctx;
     out := replicate (length ps) zerov; errc := [];
     waiters := replicate (length ps) NotStarted; pc := Spawning 0 |}.

Inductive event : Type :=
  | EvWork (p k : nat)                 (* goroutine [k] of promise [p] *)
  | EvWaiter (i : nat) (pick_done : bool)
  | EvMain
  | EvParentDone (e : goerr).          (* the caller's context fires *)

Definition set_heap (h : list Promise) (w : world) : world :=
  {| heap := h; promises := promises w; dctx := dctx w; out := out w;
     errc := errc w; waiters := waiters w; pc := pc w |}.

Definition work_step (p k : nat) (w : world) : outcome world :=
  match heap w !! p with
  | Some (Backed c) =>
      match cell_step k c with
      | Step c1 => Step (set_heap (<[p := Backed c1]> (heap w)) w)
      | Wait => Wait
      | Crash => Crash
      end
  | _ => Wait
  end.

(** The closure [waiter(i, p)].  A waiter exists only for [i < len(out)],
    so the assignment to [out[i]] is in range. *)
Definition waiter_step (i : nat) (pick_done : bool) (w : world) : outcome world :=
  match waiters w !! i with
  | Some (Awaiting p) =>
      match heap w !! p with
      | None => Crash                 (* nil interface *)
      | Some P =>
          match Promise_Await (dctx w) pick_done P with
          | (None, _) => Wait
          | (Some (v, e), P1) =>
              Step {| heap := <[p := P1]> (heap w); promises := promises w;
                      dctx := dctx w; out := <[i := v]> (out w);
                      errc := errc w;
                      waiters := <[i := Sending e]> (waiters w); pc := pc w |}
          end
      end
  | Some (Sending e) =>
      if length (errc w) <? length (out w)
      then Step {| heap := heap w; promises := promises w; dctx := dctx w;
                   out := out w; errc := errc w ++ [e];
                   waiters := <[i := Exited]> (waiters w); pc := pc w |}
      else Wait
  | _ => Wait
  end.

(** The body of [All] after its first three statements. *)
Definition main_step (w : world) : outcome world :=
  match pc w with
  | Spawning i =>
      if i <? length (out w)
      then match promises w !! i with
           | None => Crash            (* index out of range *)
           | Some p =>
               Step {| heap := heap w; promises := promises w; dctx := dctx w;
                       out := out w; errc := errc w;
                       waiters := <[i := Awaiting p]> (waiters w);
                       pc := Spawning (S i) |}
           end
      else Step {| heap := heap w; promises := promises w; dctx := dctx w;
                   out := out w; errc := errc w; waiters := waiters w;
                   pc := Receiving 0 |}
  | Receiving i =>
      if i <? length (out w)
      then match errc w with
           | [] => Wait
           | Some e :: rest =>
               Step {| heap := heap w; promises := promises w;
                       dctx := cancel (dctx w); out := out w; errc := rest;
                       waiters := waiters w; pc := Returned None (Some e) |}
           | None :: rest =>
               Step {| heap := heap w; promises := promises w; dctx := dctx w;
                       out := out w; errc := rest; waiters := waiters w;
                       pc := Receiving (S i) |}
           end
      else Step {| heap := heap w; promises := promises w;
                   dctx := cancel (dctx w); out := out w; errc := errc w;
                   waiters := waiters w; pc := Returned (Some (out w)) None |}
  | Returned _ _ => Wait
  end.

Definition step (ev : event) (w : world) : outcome world :=
  match ev with
  | EvWork p k => work_step p k w
  | EvWaiter i b => waiter_step i b w
  | EvMain => main_step w
  | EvParentDone e =>
      Step {| heap := heap w; promises := promises w;
              dctx := parent_done e (dctx w); out := out w; errc := errc w;
              waiters := waiters w; pc := pc w |}
  end.

(** A run under a schedule.  An event whose goroutine cannot move leaves
    the world as it is; a panic ends the run with [None]. *)
Fixpoint run (sched : list event) (w : world) : option world :=
  match sched with
  | [] => Some w
  | ev :: rest =>
      match step ev w with
      | Step w1 => run rest w1
      | Wait => run rest w
      | Crash => None
      end
  end.

(** ** Calls made one after the other *)

Inductive call : Type :=
  | DoResolve (v : T)
  | DoReject (e : error).

Definition call_result (c : call) : result :=
  match c with
  | DoResolve v => result_value v
  | DoReject e => result_err e
  end.

Definition apply_call (c : call) (s : syncPromise) : option syncPromise :=
  match c with
  | DoResolve v => resolve v s
  | DoReject e => reject e s
  end.

Fixpoint apply_calls (cs : list call) (s : syncPromise) : option syncPromise :=
  match cs with
  | [] => Some s
  | c :: rest =>
      match apply_call c s with
      | Some s1 => apply_calls rest s1
      | None => None
      end
  end.

(** ** Invariant of a work-backed promise *)

(** A goroutine that has won the compare-and-swap and not yet closed the
    channel. *)
Definition winning (g : stage) : nat :=
  match g with
  | AtStore _ | AtClose => 1
  | _ => 0
  end.

Definition winners (gs : list stage) : nat := tally winning gs.

Definition cell_inv (c : cell) : Prop :=
  match s_done (obj c) with
  | Closed => s_settled (obj c) = 1%Z ∧ winners (calls c) = 0
  | Open =>
      (s_settled (obj c) = 0%Z ∧ winners (calls c) = 0) ∨
      (s_settled (obj c) = 1%Z ∧ winners (calls c) = 1)
  end.

Definition promise_inv (p : Promise) : Prop :=
  match p with
  | Backed c => cell_inv c
  | Pre _ => True
  end.

(** The states a promise made by [NewPromise] goes through; [ret] is what
    [fn] returns. *)
Definition np_inv (ret : option (T * error)) (c : cell) : Prop :=
  match ret with
  | None => c = NewPromise None
  | Some rt =>
      c = NewPromise (Some rt) ∨
      c = {| obj := fresh; calls := [AtCas (classify rt)] |} ∨
      c = {| obj := mkSync 1 Open result_zero; calls := [AtStore (classify rt)] |} ∨
      c = {| obj := mkSync 1 Open (classify rt); calls := [AtClose] |} ∨
      c = {| obj := mkSync 1 Closed (classify rt); calls := [Finished] |}
  end.

(** ** Invariant of a run of [All] *)

Definition exited (x : waiter) : nat :=
  match x with Exited => 1 | _ => 0 end.

Definition nexited (ws : list waiter) : nat := tally exited ws.

(** The waiters started so far. *)
Definition spawned (m : mainpc) (n : nat) : nat :=
  match m with Spawning i => i | _ => n end.

Record world_inv (w : world) : Prop := mkInv {
  inv_heap : Forall promise_inv (heap w);
  inv_ptr : Forall (λ p, p < length (heap w)) (promises w);
  inv_out : length (out w) = length (promises w);
  inv_waiters : length (waiters w) = length (promises w);
  inv_await : ∀ i p, waiters w !! i = Some (Awaiting p) → promises w !! i = Some p;
  inv_spawned : spawned (pc w) (length (promises w)) ≤ length (promises w);
  inv_started : ∀ j x, waiters w !! j = Some x →
                  (x = NotStarted ↔ spawned (pc w) (length (promises w)) ≤ j);
  inv_chan : match pc w with
             | Spawning _ => length (errc w) = nexited (waiters w)
             | Receiving i => i + length (errc w) = nexited (waiters w)
             | Returned _ _ => length (errc w) ≤ nexited (waiters w)
             end
}.

(** The caller's context does not fire during the schedule. *)
Definition undisturbed (sched : list event) : Prop :=
  Forall (λ ev, match ev with EvParentDone _ => False | _ => True end) sched.

(** How often [All]'s own goroutine is scheduled. *)
Definition main_turns (sched : list event) : nat :=
  tally (λ ev, match ev with EvMain => 1 | _ => 0 end) sched.

(** The completion signal of a promise has been published. *)
Definition published (p : Promise) : Prop :=
  match p with
  | Backed c => s_done (obj c) = Closed
  | Pre _ => True
  end.

(** The stored result of a promise. *)
Definition stored (p : Promise) : result :=
  match p with
  | Backed c => s_result (obj c)
  | Pre r => r_result r
  end.

(** A promise that was made by one of the three constructors and settles
    with [r]: made by [Resolve]/[Reject] with that result, or made by
    [NewPromise] from a function that returns and is classified as [r]
    (the promise may be anywhere on its way). *)
Definition yields (p : Promise) (r : result) : Prop :=
  match p with
  | Pre rp => r_result rp = r
  | Backed c => ∃ rt, classify rt = r ∧ np_inv (Some rt) c
  end.

(** The turns of [All]'s goroutine that are enough to reach the first
    error of the channel when [k] nil errors are queued before it. *)
Definition turns_left (m : mainpc) (n k : nat) : nat :=
  match m with
  | Spawning i => (n - i) + 1 + (k + 1)
  | Receiving _ => k + 1
  | Returned _ _ => 0
  end.

(** What holds during a run of [All] over promises that all settle
    successfully, promise [i] with value [vs !! i], while the caller's
    context stays live. *)
Definition success_inv (vs : list T) (w : world) : Prop :=
  Forall2 (λ p v, ∃ P, heap w !! p = Some P ∧ yields P (result_value v))
          (promises w) vs ∧
  Forall (λ e, e = None) (errc w) ∧
  (∀ i x, waiters w !! i = Some x →
     match x with
     | Sending e => e = None ∧ out w !! i = vs !! i
     | Exited => out w !! i = vs !! i
     | _ => True
     end) ∧
  match pc w with
  | Returned o e =>
      o = Some vs ∧ e = None ∧ nexited (waiters w) = length (waiters w)
  | _ => dctx w = Live
  end.

(** No goroutine can move. *)
Definition quiescent (w : world) : Prop :=
  ∀ ev, match ev with EvParentDone _ => True | _ => step ev w = Wait end.

(** A bound on the actions that are left. *)
Definition stage_fuel (g : stage) : nat :=
  match g with
  | CallFn _ => 4 | AtCas _ => 3 | AtStore _ => 2 | AtClose => 1 | Finished => 0
  end.

Definition promise_fuel (p : Promise) : nat :=
  match p with
  | Backed c => tally stage_fuel (calls c)
  | Pre _ => 0
  end.

Definition waiter_fuel (x : waiter) : nat :=
  match x with
  | NotStarted | Awaiting _ => 2
  | Sending _ => 1
  | Exited => 0
  end.

Definition main_fuel (m : mainpc) (n : nat) : nat :=
  match m with
  | Spawning i => (n - i) + n + 3
  | Receiving i => (n - i) + 1
  | Returned _ _ => 0
  end.

Definition fuel (w : world) : nat :=
  tally promise_fuel (heap w) + tally waiter_fuel (waiters w)
  + main_fuel (pc w) (length (promises w)).

(** Where [All] on an empty slice stands after [t] turns of its
    goroutine. *)
Definition empty_phase (t : nat) : mainpc :=
  match t with
  | 0 => Spawning 0
  | 1 => Receiving 0
  | _ => Returned (Some []) None
  end.

(** What holds while the calls [rs] race on one promise: every call still
    under way carries one of the results [rs], and a result that has been
    stored is one of them. *)
Definition race_inv (rs : list result) (c : cell) : Prop :=
  Forall (λ g, match g with
               | AtCas r | AtStore r => r ∈ rs
               | CallFn _ => False
               | _ => True
               end) (calls c) ∧
  (s_done (obj c) = Closed ∨ AtClose ∈ calls c → s_result (obj c) ∈ rs).

(** The events of a schedule at which a goroutine does move. *)
Fixpoint actions (sched : list event) (w : world) : nat :=
  match sched with
  | [] => 0
  | ev :: rest =>
      match step ev w with
      | Step w1 => S (actions rest w1)
      | Wait => actions rest w
      | Crash => 0
      end
  end.

(** ** What a returned value sequence stands for *)

(** Slot value [ov] is the value of the promise at [p], which is
    published and holds a nil error. *)
Definition slot_ok (h : list Promise) (p : nat) (ov : option T) : Prop :=
  ∃ P, h !! p = Some P ∧ published P ∧ err (stored P) = None ∧
       ov = Some (value (stored P)).

(** As long as no error has entered the channel, every waiter that has
    read its promise without an error has put that promise's value into
    its slot; and a returned value sequence has one such slot for every
    promise. *)
Definition sound_inv (w : world) : Prop :=
  match pc w with
  | Returned (Some vals) e =>
      e = None ∧ length vals = length (promises w) ∧
      ∀ i p, promises w !! i = Some p → slot_ok (heap w) p (vals !! i)
  | Returned None _ => True
  | _ =>
      Forall (λ e, e = None) (errc w) →
      ∀ i x p, waiters w !! i = Some x → x = Exited ∨ x = Sending None →
               promises w !! i = Some p → slot_ok (heap w) p (out w !! i)
  end.

(** ** Coming to an end *)

(** [All] has returned and every waiter it started has exited. *)
Definition finished (w : world) : Prop :=
  (∃ o e, pc w = Returned o e) ∧ nexited (waiters w) = length (waiters w).

(** Schedules in which only [All]'s own goroutine and its waiters move:
    no promise settles and the caller's context does not change. *)
Definition own_events (sched : list event) : Prop :=
  Forall (λ ev, match ev with EvMain | EvWaiter _ _ => True | _ => False end)
         sched.

(** ** Promises that never settle *)

(** What holds during a run of [All] over promises whose functions never
    return: the only errors around are the error of the derived context,
    which has fired by then for a reason in [Q]; nothing nil is ever sent;
    and [All] has drained nothing unless it has returned that error. *)
Definition pending_inv (Q : goerr → Prop) (w : world) : Prop :=
  (∀ i p, promises w !! i = Some p →
          heap w !! p = Some (Backed (NewPromise None))) ∧
  Forall (λ e, e ≠ None ∧ e = ctx_Err (dctx w)) (errc w) ∧
  (∀ i e, waiters w !! i = Some (Sending e) →
          e ≠ None ∧ e = ctx_Err (dctx w)) ∧
  (∀ e0, dctx w = Fired e0 → Q e0) ∧
  match pc w with
  | Spawning _ => True
  | Receiving i => i = 0
  | Returned o e => o = None ∧ e ≠ None ∧ e = ctx_Err (dctx w)
  end.

(** ** Promises made by [Resolve] *)

(** What holds during a run of [All] over promises that were all made by
    [Resolve], promise [i] from the value [vs !! i]: no error is ever
    produced. *)
Definition resolved_inv (vs : list T) (w : world) : Prop :=
  Forall2 (λ p v, heap w !! p = Some (Pre (Resolve v))) (promises w) vs ∧
  Forall (λ e, e = None) (errc w) ∧
  (∀ i e, waiters w !! i = Some (Sending e) → e = None) ∧
  (∀ o e, pc w = Returned o e → e = None ∧ o ≠ None).

(** * Properties *)

(** ** Settling *)

Lemma settle_pending r s :
  s_settled s = 0%Z → s_done s = Open →
  settle r s = Some {| s_settled := 1; s_done := Closed; s_result := r |}.
Proof.
  intros Hs Hd. unfold settle, cas_settled. rewrite Hs. simpl.
  unfold close_done. simpl. by rewrite Hd.
Qed.

Lemma settle_settled r s : s_settled s ≠ 0%Z → settle r s = Some s.
Proof.
  intros Hs. unfold settle, cas_settled.
  destruct (Z.eqb_spec (s_settled s) 0); [done | reflexivity].
Qed.

Lemma settle_some r s s1 :
  s_settled s = 0%Z → settle r s = Some s1 →
  s1 = {| s_settled := 1; s_done := Closed; s_result := r |}.
Proof.
  intros Hs. unfold settle, cas_settled. rewrite Hs. simpl.
  unfold close_done. simpl. destruct (s_done s); simpl; congruence.
Qed.

Lemma apply_call_settle c s : apply_call c s = settle (call_result c) s.
Proof. by destruct c. Qed.

Lemma apply_calls_settled cs s :
  s_settled s ≠ 0%Z → apply_calls cs s = Some s.
Proof.
  intros Hs. induction cs as [|c cs IH]; [done|].
  simpl. rewrite apply_call_settle, settle_settled by done. exact IH.
Qed.

Lemma tally_cons {A} (f : A → nat) x l : tally f (x :: l) = f x + tally f l.
Proof. reflexivity. Qed.

Lemma tally_app {A} (f : A → nat) l1 l2 :
  tally f (l1 ++ l2) = tally f l1 + tally f l2.
Proof.
  induction l1 as [|x l1 IH]; [done|].
  rewrite <- app_comm_cons, !tally_cons, IH. lia.
Qed.

Lemma tally_insert {A} (f : A → nat) (l : list A) k x y :
  l !! k = Some x →
  tally f (<[k := y]> l) + f x = tally f l + f y.
Proof.
  revert k. induction l as [|z l IH]; intros k Hk; [done|].
  destruct k as [|k]; simpl in Hk |- *; rewrite !tally_cons.
  - injection Hk as ->. lia.
  - specialize (IH k Hk). lia.
Qed.

Lemma tally_lookup {A} (f : A → nat) (l : list A) k x :
  l !! k = Some x → f x ≤ tally f l.
Proof.
  revert k. induction l as [|z l IH]; intros k Hk; [done|].
  destruct k as [|k]; simpl in Hk; rewrite tally_cons.
  - injection Hk as ->. lia.
  - specialize (IH k Hk). lia.
Qed.

Lemma tally_le_length {A} (f : A → nat) (l : list A) :
  (∀ x, f x ≤ 1) → tally f l ≤ length l.
Proof.
  intros Hf. induction l as [|z l IH]; [done|].
  rewrite tally_cons. simpl. specialize (Hf z). lia.
Qed.

(** When the tally is the whole length every element is counted. *)
Lemma tally_full {A} (f : A → nat) (l : list A) k x :
  (∀ x, f x ≤ 1) → tally f l = length l → l !! k = Some x → f x = 1.
Proof.
  intros Hf. revert k. induction l as [|z l IH]; intros k Hlen Hk; [done|].
  rewrite tally_cons in Hlen. simpl in Hlen.
  pose proof (tally_le_length f l Hf) as Hle. pose proof (Hf z) as Hz.
  destruct k as [|k]; simpl in Hk.
  - injection Hk as ->. lia.
  - apply (IH k); [lia | done].
Qed.

Lemma tally_replicate {A} (f : A → nat) n x : tally f (replicate n x) = n * f x.
Proof.
  induction n as [|n IH]; [done|].
  simpl replicate. rewrite tally_cons, IH. lia.
Qed.

Lemma winners_insert gs k g g1 :
  gs !! k = Some g →
  winners (<[k := g1]> gs) + winning g = winners gs + winning g1.
Proof. apply tally_insert. Qed.

Lemma winners_lookup gs k g : gs !! k = Some g → winning g ≤ winners gs.
Proof. apply tally_lookup. Qed.

(** The invariant holds at creation, whatever calls are about to run. *)
Lemma winners_AtCas rs : winners (AtCas <$> rs) = 0.
Proof.
  unfold winners. induction rs as [|r rs IH]; [done|].
  by rewrite fmap_cons, tally_cons, IH.
Qed.

Lemma cell_inv_NewPromise ret : cell_inv (NewPromise ret).
Proof. left. done. Qed.

Lemma cell_inv_racing rs : cell_inv (racing rs).
Proof. left. split; [done | apply winners_AtCas]. Qed.

(** Every action of every goroutine keeps the invariant, and none panics:
    the channel is closed by the one goroutine that won the swap. *)
Lemma cell_step_inv k c :
  cell_inv c →
  match cell_step k c with
  | Step c1 => cell_inv c1
  | Wait => True
  | Crash => False
  end.
Proof.
  intros Hinv. unfold cell_step.
  destruct (calls c !! k) as [g|] eqn:Hk; [|done].
  pose proof (winners_insert (calls c) k g) as Hins.
  pose proof (winners_lookup _ _ _ Hk) as Hle.
  destruct c as [[st d r] gs]. unfold cell_inv in *. simpl in *.
  destruct g as [[ret|]|r0|r0| |]; simpl; try done.
  - specialize (Hins (AtCas (classify ret)) Hk). simpl in *.
    destruct d; (replace (winners (<[k:=AtCas (classify ret)]> gs)) with (winners gs) by lia); done.
  - unfold cas_settled. simpl.
    destruct (Z.eqb_spec st 0) as [->|Hne]; simpl.
    + specialize (Hins (AtStore r0) Hk). simpl in Hins.
      destruct d; [|lia]. right. split; [done|]. lia.
    + specialize (Hins Finished Hk). simpl in Hins.
      destruct d; (replace (winners (<[k:=Finished]> gs)) with (winners gs) by lia); done.
  - specialize (Hins AtClose Hk). simpl in *.
    destruct d; (replace (winners (<[k:=AtClose]> gs)) with (winners gs) by lia); done.
  - specialize (Hins Finished Hk). simpl in *.
    unfold close_done. simpl. destruct d; simpl; [|lia].
    split; lia.
Qed.

(** Once the channel is closed no goroutine touches the promise again. *)
Lemma cell_step_closed k c c1 :
  cell_inv c → s_done (obj c) = Closed → cell_step k c = Step c1 →
  obj c1 = obj c.
Proof.
  intros Hinv Hd. unfold cell_step.
  destruct (calls c !! k) as [g|] eqn:Hk; [|done].
  pose proof (winners_lookup _ _ _ Hk) as Hle.
  unfold cell_inv in Hinv. rewrite Hd in Hinv. destruct Hinv as [Hs Hw].
  destruct g as [[ret|]|r0|r0| |]; simpl in *; try done; try lia.
  - by intros [= <-].
  - unfold cas_settled. rewrite Hs. simpl. by intros [= <-].
Qed.

Lemma cell_run_inv sched c :
  cell_inv c → ∃ c1, cell_run sched c = Some c1 ∧ cell_inv c1.
Proof.
  revert c. induction sched as [|k sched IH]; intros c Hinv; simpl; [eauto|].
  pose proof (cell_step_inv k c Hinv) as Hstep.
  destruct (cell_step k c); [by apply IH | done | by apply IH].
Qed.

Lemma cell_run_closed sched c c1 :
  cell_inv c → s_done (obj c) = Closed → cell_run sched c = Some c1 →
  obj c1 = obj c.
Proof.
  revert c. induction sched as [|k sched IH]; intros c Hinv Hd; simpl.
  - by intros [= <-].
  - pose proof (cell_step_inv k c Hinv) as Hstep.
    destruct (cell_step k c) as [| |c2] eqn:Hk; [by apply IH | done |].
    pose proof (cell_step_closed _ _ _ Hinv Hd Hk) as Hobj.
    intros Hrun. rewrite <- Hobj. apply IH; [done | by rewrite Hobj | done].
Qed.

Lemma np_inv_cell_inv ret c : np_inv ret c → cell_inv c.
Proof.
  destruct ret as [rt|]; simpl.
  - intros [->|[->|[->|[->| ->]]]]; unfold cell_inv; simpl; auto.
  - intros ->. apply cell_inv_NewPromise.
Qed.

Lemma np_inv_step ret k c c1 :
  np_inv ret c → cell_step k c = Step c1 → np_inv ret c1.
Proof.
  destruct ret as [rt|]; simpl.
  - intros [->|[->|[->|[->| ->]]]]; destruct k as [|k]; cbn;
      try discriminate; intros [= <-]; auto 10.
  - intros ->. destruct k; cbn; discriminate.
Qed.

Lemma np_inv_run ret sched c c1 :
  np_inv ret c → cell_run sched c = Some c1 → np_inv ret c1.
Proof.
  revert c. induction sched as [|k sched IH]; intros c Hinv; simpl.
  - by intros [= <-].
  - destruct (cell_step k c) as [| |c2] eqn:Hk; [by apply IH | done |].
    apply IH. by eapply np_inv_step.
Qed.

Lemma np_inv_closed ret c :
  np_inv ret c → s_done (obj c) = Closed →
  ∃ rt, ret = Some rt ∧ obj c = mkSync 1 Closed (classify rt).
Proof.
  destruct ret as [rt|]; simpl.
  - intros [->|[->|[->|[->| ->]]]]; simpl; try discriminate. eauto.
  - by intros ->.
Qed.

Lemma Await_unchanged ctx b s : snd (Await ctx b s) = s.
Proof. unfold Await. by destruct (ready _), (ready _), b. Qed.

Lemma Promise_Await_unchanged ctx b p : snd (Promise_Await ctx b p) = p.
Proof.
  destruct p as [[s gs]|r]; simpl; [|done].
  pose proof (Await_unchanged ctx b s) as H.
  destruct (Await ctx b s) as [o s1]. simpl in *. by subst.
Qed.

(** ** Calls that race *)

Lemma elem_of_insert_inv {A} (l : list A) k x y :
  x ∈ <[k := y]> l → x = y ∨ x ∈ l.
Proof.
  intros Hin. apply list_elem_of_lookup in Hin as [j Hj].
  destruct (decide (k = j)) as [->|Hne].
  - destruct (decide (j < length l)) as [Hlt|Hge].
    + rewrite list_lookup_insert_eq in Hj by done. left. congruence.
    + rewrite list_insert_ge in Hj by lia. right. by eapply list_elem_of_lookup_2.
  - rewrite list_lookup_insert_ne in Hj by done.
    right. by eapply list_elem_of_lookup_2.
Qed.

Lemma race_inv_racing rs : race_inv rs (racing rs).
Proof.
  split; simpl.
  - apply Forall_fmap, Forall_forall. by intros r Hr.
  - intros [?|Hin]; [done|].
    apply list_elem_of_fmap in Hin as (r & ? & _). done.
Qed.

Lemma race_inv_step rs k c c1 :
  cell_inv c → race_inv rs c → cell_step k c = Step c1 → race_inv rs c1.
Proof.
  intros Hci [Hcalls Hres]. unfold cell_step.
  destruct (calls c !! k) as [g|] eqn:Hk; [|done].
  pose proof (Forall_lookup_1 _ _ _ _ Hcalls Hk) as Hg.
  assert (AtClose ∈ calls c → 1 ≤ winners (calls c)) as Hwin.
  { intros Hin. apply list_elem_of_lookup in Hin as [j Hj].
    by apply (winners_lookup _ _ _ Hj). }
  unfold cell_inv in Hci.
  destruct g as [ret|r|r| |]; simpl in *; try done.
  - unfold cas_settled.
    destruct (Z.eqb_spec (s_settled (obj c)) 0) as [Hz|Hnz];
      intros [= <-]; split; simpl.
    + by apply Forall_insert.
    + intros [Hd|Hin].
      * rewrite Hd in Hci. lia.
      * apply elem_of_insert_inv in Hin as [?|Hin]; [done|].
        apply Hwin in Hin. destruct (s_done (obj c)); lia.
    + by apply Forall_insert.
    + intros [Hd|Hin]; [by auto|].
      apply elem_of_insert_inv in Hin as [?|Hin]; [done | by auto].
  - intros [= <-]. split; simpl; [by apply Forall_insert | done].
  - unfold close_done. destruct (s_done (obj c)); simpl; [|done].
    intros [= <-]. split; simpl; [by apply Forall_insert|].
    intros _. apply Hres. right. by eapply list_elem_of_lookup_2.
Qed.

(** X1.  Any number of [resolve]/[reject] calls racing on a fresh promise,
    under any schedule: nothing panics; once the channel is closed the
    flag is set, the stored result is the result of one of the calls, and
    nothing that runs afterwards changes the promise. *)
Lemma racing_one_result rs sched :
  ∃ c, cell_run sched (racing rs) = Some c ∧
    (s_done (obj c) = Closed →
     s_settled (obj c) = 1%Z ∧ s_result (obj c) ∈ rs ∧
     ∀ later c1, cell_run later c = Some c1 → obj c1 = obj c).
Proof.
  assert (∀ c0, cell_inv c0 → race_inv rs c0 →
            ∃ c, cell_run sched c0 = Some c ∧ cell_inv c ∧ race_inv rs c) as Hrun.
  { induction sched as [|k sched IH]; intros c0 Hci Hri; simpl; [eauto|].
    pose proof (cell_step_inv k c0 Hci) as Hstep.
    destruct (cell_step k c0) as [| |c2] eqn:Hk; [by apply IH | done |].
    apply IH; [done | by apply (race_inv_step rs k c0)]. }
  destruct (Hrun _ (cell_inv_racing rs) (race_inv_racing rs))
    as (c & Hc & Hci & [_ Hres]).
  exists c. split; [done|]. intros Hd. split.
  { unfold cell_inv in Hci. rewrite Hd in Hci. by destruct Hci. }
  split; [by auto|]. intros later c1. by apply cell_run_closed.
Qed.

(** ** Claims about a single promise *)

(** C1.  Exactly-once settlement: after a first successful [resolve] or
    [reject] on a pending promise, the promise holds that call's result
    and is settled, and any later calls to [resolve]/[reject], with any
    arguments, in any order, run one after the other or interleaved with
    one another, leave the promise exactly as it was. *)
Theorem settle_exactly_once (c : call) (s s1 : syncPromise) :
  s_settled s = 0%Z → apply_call c s = Some s1 →
  (s_result s1 = call_result c ∧ Settled s1 = true ∧ s_done s1 = Closed) ∧
  (∀ later, apply_calls later s1 = Some s1) ∧
  (∀ later sched,
     ∃ c1, cell_run sched {| obj := s1; calls := AtCas ∘ call_result <$> later |}
             = Some c1 ∧ obj c1 = s1).
Proof.
  intros Hs Hc. rewrite apply_call_settle in Hc.
  apply settle_some in Hc; [|done]. subst s1. split; [done|]. split.
  - intros later. by apply apply_calls_settled.
  - intros later sched.
    set (c0 := {| obj := _; calls := _ |}).
    assert (cell_inv c0) as Hinv.
    { unfold cell_inv, c0. simpl. split; [done|].
      rewrite list_fmap_compose. apply winners_AtCas. }
    destruct (cell_run_inv sched c0 Hinv) as (c1 & Hrun & _).
    exists c1. split; [done|].
    by apply (cell_run_closed sched c0 c1).
Qed.

(** C2.  Cancellation non-mutation: [Await] with a fired context on a
    still-pending promise returns the zero value with the context's error,
    hands the promise back with every field as it was, so that [Settled]
    is still false; and no [Await] call, whatever the context and the
    state, changes the promise. *)
Theorem Await_cancelled_leaves_pending (s : syncPromise) (reason : goerr) (b : bool) :
  Settled s = false → s_done s = Open →
  Await (Fired reason) b s = (Some (zerov, Some reason), s) ∧
  Settled (snd (Await (Fired reason) b s)) = false ∧
  (∀ ctx b1 s1, snd (Await ctx b1 s1) = s1).
Proof.
  intros Hset Hd. split; [|split].
  - unfold Await. simpl. by rewrite Hd.
  - by rewrite Await_unchanged.
  - apply Await_unchanged.
Qed.

(** C5.  Pre-settled constructors: the promises made by [Resolve(v)] and
    [Reject(e)] report [Settled] at once, and [Await] on them returns
    [(v, nil)] and [(zero, e)] for every context, fired or not. *)
Theorem presettled_constructors (v : T) (e : error) (ctx : Ctx) (b : bool) :
  Promise_Settled (Pre (Resolve v)) = true ∧
  Promise_Settled (Pre (Reject e)) = true ∧
  Promise_Await ctx b (Pre (Resolve v)) = (Some (v, None), Pre (Resolve v)) ∧
  Promise_Await ctx b (Pre (Reject e)) = (Some (zerov, e), Pre (Reject e)).
Proof. done. Qed.

(** C6.  Settled iff signal published: this does not hold of the code.
    [resolve] sets the flag with the compare-and-swap and closes [done]
    two actions later; in between, [Settled] already answers true while
    the completion signal is not published and [Await] under a live
    context blocks.  The state is reached by the goroutine of
    [NewPromise] after [fn] has returned and the swap is done. *)
Theorem Settled_before_done_closed (v : T) :
  ∃ c, cell_run [0; 0] (NewPromise (Some (v, None))) = Some c ∧
       Settled (obj c) = true ∧ s_done (obj c) = Open ∧
       ∀ b, fst (Await Live b (obj c)) = None.
Proof. eexists. split; [reflexivity|]. done. Qed.

(** What does hold: a published signal implies [Settled], and the two
    agree whenever no call is between its swap and its close. *)
Lemma done_closed_Settled c :
  cell_inv c → s_done (obj c) = Closed → Settled (obj c) = true.
Proof.
  unfold cell_inv, Settled. intros Hinv Hd. rewrite Hd in Hinv.
  destruct Hinv as [-> _]. done.
Qed.

Lemma Settled_iff_done_quiescent c :
  cell_inv c → winners (calls c) = 0 →
  Settled (obj c) = true ↔ s_done (obj c) = Closed.
Proof.
  unfold cell_inv, Settled. intros Hinv Hw.
  destruct (s_done (obj c)).
  - destruct Hinv as [[-> _]|[_ ?]]; [done | lia].
  - destruct Hinv as [-> _]. done.
Qed.

(** C9.  Settlement classification in [NewPromise]: when [fn] returns
    [(v, e)], the stored error is non-nil exactly when [e] is; with a
    non-nil [e] the stored result is the zero value with [e], and [v] is
    dropped.  The goroutine reaches that settled state in four actions,
    no schedule leads to a published promise with another result, and
    [Await] then returns the classified pair. *)
Theorem NewPromise_classification (v : T) (e : error) :
  (err (classify (v, e)) ≠ None ↔ e ≠ None) ∧
  (∀ e1, e = Some e1 → classify (v, e) = {| value := zerov; err := Some e1 |}) ∧
  (e = None → classify (v, e) = {| value := v; err := None |}) ∧
  cell_run [0; 0; 0; 0] (NewPromise (Some (v, e)))
    = Some {| obj := mkSync 1 Closed (classify (v, e)); calls := [Finished] |} ∧
  (∀ sched c, cell_run sched (NewPromise (Some (v, e))) = Some c →
     s_done (obj c) = Closed →
     s_result (obj c) = classify (v, e) ∧
     ∀ b, fst (Await Live b (obj c))
          = Some (value (classify (v, e)), err (classify (v, e)))).
Proof.
  split; [|split; [|split; [|split]]].
  - unfold classify. simpl. destruct e; simpl; split; congruence.
  - by intros e1 ->.
  - by intros ->.
  - unfold classify. simpl. by destruct e.
  - intros sched c Hrun Hd.
    assert (np_inv (Some (v, e)) c) as Hnp.
    { eapply np_inv_run; [|exact Hrun]. by left. }
    destruct (np_inv_closed _ _ Hnp Hd) as (rt & [= <-] & Hobj).
    rewrite Hobj. done.
Qed.

(** C10.  Zero value on cancellation: when [Await] returns through the
    [ctx.Done()] case (the promise is not yet published, or both cases
    were ready and the context's was picked), the value is the zero value
    of [T] and the error is the context's error, which is not nil.  And
    on a promise made by [NewPromise] no return of [Await], through
    either case, carries a non-nil error together with a value other than
    the zero value. *)
Theorem Await_cancel_returns_zero (s : syncPromise) (ctx : Ctx) (b : bool) :
  ctx_Done ctx = Closed → s_done s = Open ∨ b = false →
  fst (Await ctx b s) = Some (zerov, ctx_Err ctx) ∧ ctx_Err ctx ≠ None ∧
  (∀ ret c ctx1 b1 v e,
     np_inv ret c → fst (Await ctx1 b1 (obj c)) = Some (v, e) →
     e ≠ None → v = zerov).
Proof.
  intros Hctx Hsel. split; [|split].
  - unfold Await. rewrite Hctx. simpl.
    destruct Hsel as [-> | ->]; [done|]. by destruct (ready (s_done s)).
  - by destruct ctx.
  - intros ret c ctx1 b1 v e Hnp.
    assert (s_result (obj c) = result_zero ∨
            ∃ rt, s_result (obj c) = classify rt) as Hres.
    { destruct ret as [rt|]; simpl in Hnp.
      - destruct Hnp as [->|[->|[->|[->| ->]]]]; simpl; eauto.
      - subst c. by left. }
    unfold Await.
    destruct (ready (ctx_Done ctx1)), (ready (s_done (obj c))), b1; simpl;
      intros [= <- <-]; try done.
    all: destruct Hres as [->|[rt ->]]; simpl; try done.
    all: unfold classify; destruct (snd rt); simpl; done.
Qed.

(** ** The invariant of [All] *)

Lemma exited_le x : exited x ≤ 1.
Proof. destruct x; simpl; lia. Qed.

Lemma nexited_le ws : nexited ws ≤ length ws.
Proof. apply tally_le_length, exited_le. Qed.

Lemma world_inv_init ctx h ps :
  Forall promise_inv h → Forall (λ p, p < length h) ps →
  world_inv (All_init ctx h ps).
Proof.
  intros Hh Hps. split; simpl; try done.
  - by rewrite length_replicate.
  - by rewrite length_replicate.
  - intros i p Hi. apply lookup_replicate in Hi as [? _]. done.
  - lia.
  - intros j x Hj. apply lookup_replicate in Hj as [-> _]. split; [lia | done].
  - unfold nexited. by rewrite tally_replicate.
Qed.

Lemma work_step_inv p k w :
  world_inv w →
  match work_step p k w with
  | Step w1 => world_inv w1
  | Wait => True
  | Crash => False
  end.
Proof.
  intros [Hh Hp Ho Hw Ha Hsp Hst Hc]. unfold work_step.
  destruct (heap w !! p) as [[c|r]|] eqn:Hl; try done.
  assert (cell_inv c) as Hci.
  { by apply (Forall_lookup_1 _ _ _ _ Hh Hl). }
  pose proof (cell_step_inv k c Hci) as Hstep.
  destruct (cell_step k c) as [| |c1]; try done.
  split; simpl; try done.
  - by apply Forall_insert.
  - by rewrite length_insert.
Qed.

Lemma waiter_step_inv i b w :
  world_inv w →
  match waiter_step i b w with
  | Step w1 => world_inv w1
  | Wait => True
  | Crash => False
  end.
Proof.
  intros [Hh Hp Ho Hw Ha Hsp Hst Hc]. unfold waiter_step.
  destruct (waiters w !! i) as [[|p|e|]|] eqn:Hi; try done.
  - (* the Await returns *)
    pose proof (Ha i p Hi) as Hpi.
    assert (p < length (heap w)) as Hlt.
    { by apply (Forall_lookup_1 _ _ _ _ Hp Hpi). }
    destruct (lookup_lt_is_Some_2 _ _ Hlt) as [P HP]. rewrite HP.
    pose proof (Promise_Await_unchanged (dctx w) b P) as Hsame.
    destruct (Promise_Await (dctx w) b P) as [[[v e]|] P1]; [|done].
    simpl in Hsame. subst P1.
    pose proof (tally_insert exited (waiters w) i _ (Sending e) Hi) as Hins.
    simpl in Hins.
    assert (nexited (<[i:=Sending e]> (waiters w)) = nexited (waiters w)) as Hn
      by (unfold nexited; lia).
    split; simpl; rewrite ?length_insert, ?list_insert_id by done; try done.
    + intros j q Hj. destruct (decide (i = j)) as [->|Hne].
      * rewrite list_lookup_insert_eq in Hj by (by eapply lookup_lt_Some). done.
      * rewrite list_lookup_insert_ne in Hj by done. by apply Ha.
    + intros j x Hj. destruct (decide (i = j)) as [->|Hne].
      * rewrite list_lookup_insert_eq in Hj by (by eapply lookup_lt_Some).
        injection Hj as <-. rewrite <- (Hst j _ Hi). done.
      * rewrite list_lookup_insert_ne in Hj by done. by apply Hst.
    + rewrite Hn. done.
  - (* the send *)
    pose proof (tally_insert exited (waiters w) i _ Exited Hi) as Hins.
    simpl in Hins.
    pose proof (nexited_le (<[i:=Exited]> (waiters w))) as Hle.
    rewrite length_insert in Hle.
    assert (nexited (<[i:=Exited]> (waiters w)) = S (nexited (waiters w))) as Hn
      by (unfold nexited; lia).
    assert (length (errc w) < length (out w)) as Hroom.
    { rewrite Ho, <- Hw. destruct (pc w); lia. }
    apply Nat.ltb_lt in Hroom. rewrite Hroom.
    split; simpl; rewrite ?length_insert, ?length_app; try done.
    + intros j q Hj. destruct (decide (i = j)) as [->|Hne].
      * rewrite list_lookup_insert_eq in Hj by (by eapply lookup_lt_Some). done.
      * rewrite list_lookup_insert_ne in Hj by done. by apply Ha.
    + intros j x Hj. destruct (decide (i = j)) as [->|Hne].
      * rewrite list_lookup_insert_eq in Hj by (by eapply lookup_lt_Some).
        injection Hj as <-. rewrite <- (Hst j _ Hi). done.
      * rewrite list_lookup_insert_ne in Hj by done. by apply Hst.
    + rewrite Hn. simpl. destruct (pc w); lia.
Qed.

Lemma main_step_inv w :
  world_inv w →
  match main_step w with
  | Step w1 => world_inv w1
  | Wait => True
  | Crash => False
  end.
Proof.
  intros [Hh Hp Ho Hw Ha Hsp Hst Hc]. unfold main_step.
  destruct (pc w) as [i|i|o e] eqn:Hpc; simpl in *; [| |done].
  - destruct (Nat.ltb_spec i (length (out w))) as [Hlt|Hge].
    + destruct (lookup_lt_is_Some_2 (promises w) i) as [p Hpi]; [lia|].
      rewrite Hpi.
      destruct (lookup_lt_is_Some_2 (waiters w) i) as [x Hx]; [lia|].
      pose proof (proj2 (Hst i x Hx) (le_n _)) as ->.
      pose proof (tally_insert exited (waiters w) i _ (Awaiting p) Hx) as Hins.
      simpl in Hins.
      split; simpl; rewrite ?length_insert; try done.
      * intros j q Hj. destruct (decide (i = j)) as [->|Hne].
        -- rewrite list_lookup_insert_eq in Hj by lia. by injection Hj as <-.
        -- rewrite list_lookup_insert_ne in Hj by done. by apply Ha.
      * lia.
      * intros j y Hj. destruct (decide (i = j)) as [->|Hne].
        -- rewrite list_lookup_insert_eq in Hj by lia. injection Hj as <-.
           split; [done | lia].
        -- rewrite list_lookup_insert_ne in Hj by done.
           rewrite (Hst j y Hj). lia.
      * unfold nexited in *. lia.
    + split; simpl; try done.
      intros j y Hj. rewrite (Hst j y Hj). lia.
  - destruct (Nat.ltb_spec i (length (out w))) as [Hlt|Hge].
    + destruct (errc w) as [|[e|] rest] eqn:He; [done| |].
      * split; simpl in *; try done. lia.
      * split; simpl in *; try done. lia.
    + split; simpl in *; try done. lia.
Qed.

Lemma step_inv ev w :
  world_inv w →
  match step ev w with
  | Step w1 => world_inv w1
  | Wait => True
  | Crash => False
  end.
Proof.
  intros Hinv. destruct ev as [p k|i b| |e]; simpl.
  - by apply work_step_inv.
  - by apply waiter_step_inv.
  - by apply main_step_inv.
  - destruct Hinv. by split.
Qed.

(** No schedule makes a run of [All] panic, and the invariant holds
    throughout. *)
Lemma run_inv sched w :
  world_inv w → ∃ w1, run sched w = Some w1 ∧ world_inv w1.
Proof.
  revert w. induction sched as [|ev sched IH]; intros w Hinv; simpl; [eauto|].
  pose proof (step_inv ev w Hinv) as Hstep.
  destruct (step ev w); [by apply IH | done | by apply IH].
Qed.

Lemma run_app s1 s2 w :
  run (s1 ++ s2) w = match run s1 w with Some w1 => run s2 w1 | None => None end.
Proof.
  revert w. induction s1 as [|ev s1 IH]; intros w; simpl; [done|].
  destruct (step ev w); auto.
Qed.

(** ** What the other goroutines cannot change *)

Lemma step_promises ev w w1 : step ev w = Step w1 → promises w1 = promises w.
Proof.
  destruct ev as [p k|i b| |e]; simpl.
  - unfold work_step. destruct (heap w !! p) as [[c|r]|]; try done.
    destruct (cell_step k c); try done. by intros [= <-].
  - unfold waiter_step. destruct (waiters w !! i) as [[|p|e|]|]; try done.
    + destruct (heap w !! p) as [P|]; [|done].
      destruct (Promise_Await (dctx w) b P) as [[[v e]|] P1]; [|done].
      by intros [= <-].
    + destruct (_ <? _); [|done]. by intros [= <-].
  - unfold main_step. destruct (pc w) as [i|i|o e]; [| |done].
    + destruct (_ <? _); [destruct (promises w !! i); [|done]|]; by intros [= <-].
    + destruct (_ <? _); [destruct (errc w) as [|[e|] rest]; [done| |]|];
        by intros [= <-].
  - by intros [= <-].
Qed.

Lemma other_step ev w w1 :
  ev ≠ EvMain → step ev w = Step w1 →
  pc w1 = pc w ∧ ∃ tail, errc w1 = errc w ++ tail.
Proof.
  destruct ev as [p k|i b| |e]; simpl; intros Hne; [| |done|].
  - unfold work_step. destruct (heap w !! p) as [[c|r]|]; try done.
    destruct (cell_step k c); try done. intros [= <-]. simpl.
    split; [done|]. exists []. by rewrite app_nil_r.
  - unfold waiter_step. destruct (waiters w !! i) as [[|p|e|]|]; try done.
    + destruct (heap w !! p) as [P|]; [|done].
      destruct (Promise_Await (dctx w) b P) as [[[v e]|] P1]; [|done].
      intros [= <-]. simpl. split; [done|]. exists []. by rewrite app_nil_r.
    + destruct (_ <? _); [|done]. intros [= <-]. simpl. eauto.
  - intros [= <-]. simpl. split; [done|]. exists []. by rewrite app_nil_r.
Qed.

Lemma fired_step ev w w1 :
  ctx_Done (dctx w) = Closed → step ev w = Step w1 →
  ctx_Done (dctx w1) = Closed.
Proof.
  intros Hf. destruct ev as [p k|i b| |e]; simpl.
  - unfold work_step. destruct (heap w !! p) as [[c|r]|]; try done.
    destruct (cell_step k c); try done. by intros [= <-].
  - unfold waiter_step. destruct (waiters w !! i) as [[|p|e|]|]; try done.
    + destruct (heap w !! p) as [P|]; [|done].
      destruct (Promise_Await (dctx w) b P) as [[[v e]|] P1]; [|done].
      by intros [= <-].
    + destruct (_ <? _); [|done]. by intros [= <-].
  - unfold main_step. destruct (pc w) as [i|i|o e]; [| |done].
    + destruct (_ <? _); [destruct (promises w !! i); [|done]|]; by intros [= <-].
    + destruct (_ <? _); [destruct (errc w) as [|[e|] rest]; [done| |]|];
        intros [= <-]; simpl; try done; by destruct (dctx w).
  - intros [= <-]. simpl. by destruct (dctx w).
Qed.

Lemma returned_step ev w w1 o e :
  pc w = Returned o e → step ev w = Step w1 → pc w1 = Returned o e.
Proof.
  intros Hpc Hs.
  destruct ev; try (apply other_step in Hs as [-> _]; done).
  simpl in Hs. unfold main_step in Hs. by rewrite Hpc in Hs.
Qed.

(** After [All] has returned, the goroutines it leaves behind run on
    without a panic and without an effect on what it returned. *)
Lemma returned_stable sched w o e :
  world_inv w → pc w = Returned o e → ctx_Done (dctx w) = Closed →
  ∃ w1, run sched w = Some w1 ∧ pc w1 = Returned o e ∧
        ctx_Done (dctx w1) = Closed.
Proof.
  revert w. induction sched as [|ev sched IH]; intros w Hinv Hpc Hf; simpl;
    [eauto|].
  pose proof (step_inv ev w Hinv) as Hstep.
  destruct (step ev w) as [| |w2] eqn:Hs; [by apply IH | done |].
  apply IH; [done | by eapply returned_step | by eapply fired_step].
Qed.

(** ** Draining the channel *)

Lemma main_turns_main sched : main_turns (EvMain :: sched) = S (main_turns sched).
Proof. reflexivity. Qed.

Lemma main_turns_other ev sched :
  ev ≠ EvMain → main_turns (ev :: sched) = main_turns sched.
Proof. by destruct ev. Qed.

Lemma cancel_fired c : ctx_Done (cancel c) = Closed.
Proof. by destruct c. Qed.

(** With [k] nil errors and then the error [e] in the channel, [All]
    returns [(nil, e)] as soon as its own goroutine has had enough turns,
    whatever the other goroutines do in between, and it returns nothing
    else. *)
Lemma drain_first_error sched w k e rest :
  world_inv w →
  (∀ o e1, pc w ≠ Returned o e1) →
  errc w = replicate k None ++ Some e :: rest →
  ∃ w1, run sched w = Some w1 ∧
    (turns_left (pc w) (length (promises w)) k ≤ main_turns sched →
     pc w1 = Returned None (Some e) ∧ ctx_Done (dctx w1) = Closed) ∧
    (∀ o e1, pc w1 = Returned o e1 →
     o = None ∧ e1 = Some e ∧ ctx_Done (dctx w1) = Closed).
Proof.
  revert w k rest.
  induction sched as [|ev sched IH]; intros w k rest Hinv Hnr Herrc.
  { exists w. split; [done|]. split.
    - destruct (pc w) eqn:Hpc; simpl; unfold main_turns, tally; simpl; try lia.
      by destruct (Hnr vals e0).
    - intros o e1 Hpc. by destruct (Hnr o e1). }
  pose proof (step_inv ev w Hinv) as Hstep.
  assert (ev ≠ EvMain →
          ∃ w1, run (ev :: sched) w = Some w1 ∧
            (turns_left (pc w) (length (promises w)) k ≤ main_turns (ev :: sched) →
             pc w1 = Returned None (Some e) ∧ ctx_Done (dctx w1) = Closed) ∧
            (∀ o e1, pc w1 = Returned o e1 →
             o = None ∧ e1 = Some e ∧ ctx_Done (dctx w1) = Closed)) as Hother.
  { intros Hne. rewrite main_turns_other by done. simpl.
    destruct (step ev w) as [| |w2] eqn:Hs; [by apply (IH w k rest) | done |].
    destruct (other_step _ _ _ Hne Hs) as [Hpc [tail Htail]].
    rewrite <- (step_promises _ _ _ Hs), <- Hpc.
    apply (IH w2 k (rest ++ tail)); [done | by rewrite Hpc |].
    rewrite Htail, Herrc, <- app_assoc. done. }
  destruct ev as [p j|i b| |e0]; try (by apply Hother).
  clear Hother. rewrite main_turns_main. simpl in *.
  destruct Hinv as [Hh Hp Ho Hw Ha Hsp Hst Hc].
  unfold main_step in *.
  destruct (pc w) as [i|i|o e1] eqn:Hpc; simpl in *.
  - destruct (Nat.ltb_spec i (length (out w))) as [Hlt|Hge].
    + destruct (promises w !! i) as [p|]; [|done].
      match goal with |- ∃ w1, run sched ?w2 = _ ∧ _ =>
        destruct (IH w2 k rest) as (w1 & Hrun & Hlive & Hsafe);
          [done | done | done |] end.
      simpl in *. exists w1. split; [done|]. split; [|done].
      intros Hturns. apply Hlive. lia.
    + match goal with |- ∃ w1, run sched ?w2 = _ ∧ _ =>
        destruct (IH w2 k rest) as (w1 & Hrun & Hlive & Hsafe);
          [done | done | done |] end.
      simpl in *. exists w1. split; [done|]. split; [|done].
      intros Hturns. apply Hlive. lia.
  - pose proof (nexited_le (waiters w)) as Hle.
    assert (i < length (out w)) as Hlt.
    { rewrite Herrc, length_app, length_replicate in Hc. simpl in Hc. lia. }
    apply Nat.ltb_lt in Hlt. rewrite Hlt in *.
    rewrite Herrc in *. destruct k as [|k]; simpl in *.
    + match goal with |- ∃ w1, run sched ?w2 = _ ∧ _ =>
        destruct (returned_stable sched w2 None (Some e))
          as (w1 & Hrun & Hret & Hfired);
          [done | done | apply cancel_fired |] end.
      exists w1. split; [done|]. split; [done|].
      intros o e1. rewrite Hret. by intros [= <- <-].
    + match goal with |- ∃ w1, run sched ?w2 = _ ∧ _ =>
        destruct (IH w2 k rest) as (w1 & Hrun & Hlive & Hsafe);
          [done | done | done |] end.
      simpl in *. exists w1. split; [done|]. split; [|done].
      intros Hturns. apply Hlive. lia.
  - by destruct (Hnr o e1).
Qed.

(** C4.  Short-circuit of [All]: in any state that a run of [All] can
    reach before it returns, if the channel holds [k] nil errors and then
    the error [e] (so some awaited promise has yielded an error and [e] is
    the first one to be drained), then under every schedule the run goes on
    without a panic; once [All]'s own goroutine has had [turns_left] turns
    it has returned [(nil, e)] with the derived context cancelled, whether
    or not any other waiter has moved; and whenever it has returned, it
    has returned [(nil, e)] and never a value sequence. *)
Theorem All_short_circuit ctx h ps pre w k e rest sched :
  Forall promise_inv h → Forall (λ p, p < length h) ps →
  run pre (All_init ctx h ps) = Some w →
  (∀ o e1, pc w ≠ Returned o e1) →
  errc w = replicate k None ++ Some e :: rest →
  ∃ w1, run sched w = Some w1 ∧
    (turns_left (pc w) (length (promises w)) k ≤ main_turns sched →
     pc w1 = Returned None (Some e) ∧ ctx_Done (dctx w1) = Closed) ∧
    (∀ o e1, pc w1 = Returned o e1 →
     o = None ∧ e1 = Some e ∧ ctx_Done (dctx w1) = Closed).
Proof.
  intros Hh Hps Hpre Hnr Herrc.
  destruct (run_inv pre _ (world_inv_init ctx h ps Hh Hps)) as (w0 & Hrun & Hinv).
  rewrite Hpre in Hrun. injection Hrun as <-.
  by apply drain_first_error with rest.
Qed.

(** An error that a waiter has got from its [Await] is sent at the
    waiter's next turn: the channel has room for every waiter. *)
Lemma yielded_error_sent w j e b :
  world_inv w → waiters w !! j = Some (Sending e) →
  ∃ w1, step (EvWaiter j b) w = Step w1 ∧ errc w1 = errc w ++ [e] ∧
        pc w1 = pc w.
Proof.
  intros [Hh Hp Ho Hw Ha Hsp Hst Hc] Hj. simpl. unfold waiter_step. rewrite Hj.
  pose proof (tally_insert exited (waiters w) j _ Exited Hj) as Hins.
  pose proof (nexited_le (<[j:=Exited]> (waiters w))) as Hle.
  rewrite length_insert in Hle. simpl in Hins. unfold nexited in *.
  assert (length (errc w) < length (out w)) as Hroom.
  { rewrite Ho, <- Hw. destruct (pc w); lia. }
  apply Nat.ltb_lt in Hroom. rewrite Hroom. eauto.
Qed.

(** A channel that holds an error holds a first one. *)
Lemma first_error (q : list error) e0 :
  Some e0 ∈ q → ∃ k e rest, q = replicate k None ++ Some e :: rest.
Proof.
  induction q as [|x q IH]; intros Hin; [by apply elem_of_nil in Hin|].
  destruct x as [e|].
  - by exists 0, e, q.
  - apply elem_of_cons in Hin as [?|Hin]; [done|].
    destruct (IH Hin) as (k & e & rest & ->). by exists (S k), e, rest.
Qed.

(** An error that some waiter has got from its [Await] and is about to
    send decides the outcome: after the waiter's next turn the channel
    holds a first error [e], and [All] returns [(nil, e)] and nothing
    else. *)
Lemma yielded_error_returns w j e0 b sched :
  world_inv w → (∀ o e1, pc w ≠ Returned o e1) →
  waiters w !! j = Some (Sending (Some e0)) →
  ∃ k e rest w1,
    errc w ++ [Some e0] = replicate k None ++ Some e :: rest ∧
    run (EvWaiter j b :: sched) w = Some w1 ∧
    (turns_left (pc w) (length (promises w)) k ≤ main_turns sched →
     pc w1 = Returned None (Some e) ∧ ctx_Done (dctx w1) = Closed) ∧
    (∀ o e1, pc w1 = Returned o e1 →
     o = None ∧ e1 = Some e ∧ ctx_Done (dctx w1) = Closed).
Proof.
  intros Hinv Hnr Hj.
  destruct (yielded_error_sent w j (Some e0) b Hinv Hj) as (w2 & Hs & Herrc & Hpc).
  pose proof (step_inv (EvWaiter j b) w Hinv) as Hinv2. rewrite Hs in Hinv2.
  destruct (first_error (errc w2) e0) as (k & e & rest & Hq).
  { rewrite Herrc. apply elem_of_app. right. by apply list_elem_of_singleton. }
  destruct (drain_first_error sched w2 k e rest Hinv2) as (w1 & Hrun & Hlive & Hsafe);
    [by rewrite Hpc | done |].
  exists k, e, rest, w1.
  split; [transitivity (errc w2); [symmetry; exact Herrc | exact Hq]|].
  rewrite Hpc, (step_promises _ _ _ Hs) in Hlive.
  split; [|done]. simpl in Hs |- *. by rewrite Hs.
Qed.

(** Whatever [All] returns, the derived context is cancelled by then, and
    a value sequence is returned exactly when the error is nil: with an
    error the slice is nil, without one it is the whole of [out]. *)
Lemma step_return_shape ev w w1 :
  step ev w = Step w1 →
  (∀ o e, pc w = Returned o e →
     ctx_Done (dctx w) = Closed ∧ (o = None ↔ e ≠ None)) →
  ∀ o e, pc w1 = Returned o e →
     ctx_Done (dctx w1) = Closed ∧ (o = None ↔ e ≠ None).
Proof.
  intros Hs Hold o e Hpc1.
  destruct ev as [p k|i b| |e0].
  1,2,4: match type of Hs with step ?ev0 _ = _ =>
      destruct (other_step ev0 w w1) as [Hpc _]; [done | exact Hs |] end;
    rewrite Hpc in Hpc1; destruct (Hold o e Hpc1) as [Hf Hoe];
    split; [by eapply fired_step | done].
  simpl in Hs. unfold main_step in Hs.
  destruct (pc w) as [i|i|o0 e0] eqn:Hpc; [| |done].
  - destruct (_ <? _); [destruct (promises w !! i); [|done]|];
      injection Hs as <-; simpl in Hpc1; done.
  - destruct (_ <? _); [destruct (errc w) as [|[e1|] rest]; [done| |]|];
      injection Hs as <-; simpl in Hpc1; try done;
      injection Hpc1 as <- <-; simpl; (split; [apply cancel_fired | done]).
Qed.

Lemma All_return_shape ctx h ps sched w o e :
  run sched (All_init ctx h ps) = Some w → pc w = Returned o e →
  ctx_Done (dctx w) = Closed ∧ (o = None ↔ e ≠ None).
Proof.
  assert (∀ w0, (∀ o e, pc w0 = Returned o e →
                   ctx_Done (dctx w0) = Closed ∧ (o = None ↔ e ≠ None)) →
                run sched w0 = Some w →
                ∀ o e, pc w = Returned o e →
                   ctx_Done (dctx w) = Closed ∧ (o = None ↔ e ≠ None)) as Hgen.
  { induction sched as [|ev sched IH]; intros w0 H0; simpl.
    - by intros [= <-].
    - destruct (step ev w0) as [| |w2] eqn:Hs; [by apply IH | done |].
      apply IH. by apply (step_return_shape ev w0). }
  intros Hrun. apply (Hgen (All_init ctx h ps)); [|done].
  intros o0 e0. simpl. done.
Qed.

(** ** [All] on an empty slice *)

Lemma empty_run sched w t w1 :
  out w = [] → waiters w = [] → pc w = empty_phase t →
  run sched w = Some w1 →
  pc w1 = empty_phase (t + main_turns sched).
Proof.
  revert w t. induction sched as [|ev sched IH]; intros w t Ho Hw Hpc; simpl.
  { intros [= <-]. rewrite Hpc. f_equal. unfold main_turns, tally. simpl. lia. }
  destruct ev as [p k|i b| |e].
  - rewrite main_turns_other by done. simpl. unfold work_step.
    destruct (heap w !! p) as [[c|r]|]; try by apply IH.
    destruct (cell_step k c); try done; by apply IH.
  - rewrite main_turns_other by done. simpl. unfold waiter_step.
    rewrite Hw. simpl. by apply IH.
  - rewrite main_turns_main. simpl. unfold main_step. rewrite Hpc, Ho.
    destruct t as [|[|t]]; simpl.
    + intros Hrun. apply (IH _ 1) in Hrun; try done.
    + intros Hrun. apply (IH _ 2) in Hrun; try done.
    + intros Hrun. apply (IH _ (S (S t))) in Hrun; try done.
  - rewrite main_turns_other by done. simpl. by apply IH.
Qed.

(** C8.  [All] on an empty slice: for every context and every store,
    [All]'s goroutine returns an empty value sequence and a nil error in
    two actions of its own, neither of which can block; under any schedule
    it has returned that as soon as it has had two turns, and it never
    returns anything else. *)
Theorem All_empty (ctx : Ctx) (h : list Promise) :
  (∃ w1 w2, main_step (All_init ctx h []) = Step w1 ∧
            main_step w1 = Step w2 ∧ pc w2 = Returned (Some []) None) ∧
  (∀ sched w, run sched (All_init ctx h []) = Some w →
     (2 ≤ main_turns sched → pc w = Returned (Some []) None) ∧
     (∀ o e, pc w = Returned o e → o = Some [] ∧ e = None)).
Proof.
  split.
  - eexists _, _. split; [reflexivity|]. split; reflexivity.
  - intros sched w Hrun.
    apply (empty_run sched _ 0) in Hrun; [|done..]. simpl in Hrun.
    rewrite Hrun. split.
    + intros Hturns. destruct (main_turns sched) as [|[|n]]; [lia..|done].
    + intros o e. destruct (main_turns sched) as [|[|n]]; simpl; try done.
      by intros [= <- <-].
Qed.

(** ** Reading a published promise *)

Lemma Promise_Await_published b p :
  published p →
  fst (Promise_Await Live b p) = Some (value (stored p), err (stored p)).
Proof.
  destruct p as [[s gs]|r]; simpl; [|done].
  intros Hd. unfold Await. simpl. by rewrite Hd.
Qed.

(** An [Await] that returns under a live context returns the stored
    result, and then the promise is published. *)
Lemma Promise_Await_live b p r :
  fst (Promise_Await Live b p) = Some r →
  published p ∧ r = (value (stored p), err (stored p)).
Proof.
  destruct p as [[s gs]|rp0]; simpl.
  - unfold Await. simpl. destruct (s_done s); simpl; [done|].
    by intros [= <-].
  - by intros [= <-].
Qed.

Lemma step_published ev w w1 :
  Forall promise_inv (heap w) → step ev w = Step w1 →
  Forall promise_inv (heap w1) ∧
  ∀ p P, heap w !! p = Some P → published P →
    ∃ P1, heap w1 !! p = Some P1 ∧ published P1 ∧ stored P1 = stored P.
Proof.
  intros Hh. destruct ev as [q k|i b| |e]; simpl.
  - unfold work_step. destruct (heap w !! q) as [[c|r]|] eqn:Hq; try done.
    assert (cell_inv c) as Hci by (by apply (Forall_lookup_1 _ _ _ _ Hh Hq)).
    pose proof (cell_step_inv k c Hci) as Hstep.
    destruct (cell_step k c) as [| |c1] eqn:Hk; try done.
    intros [= <-]. simpl. split; [by apply Forall_insert|].
    intros p P Hp Hpub. destruct (decide (q = p)) as [->|Hne].
    + rewrite Hq in Hp. injection Hp as <-. simpl in Hpub.
      pose proof (cell_step_closed _ _ _ Hci Hpub Hk) as Hobj.
      exists (Backed c1). rewrite list_lookup_insert_eq by (by eapply lookup_lt_Some).
      simpl. rewrite Hobj. done.
    + exists P. by rewrite list_lookup_insert_ne.
  - unfold waiter_step. destruct (waiters w !! i) as [[|q|e|]|]; try done.
    + destruct (heap w !! q) as [Q|] eqn:Hq; [|done].
      pose proof (Promise_Await_unchanged (dctx w) b Q) as Hsame.
      destruct (Promise_Await (dctx w) b Q) as [[[v e]|] Q1]; [|done].
      simpl in Hsame. subst Q1. intros [= <-]. simpl.
      rewrite list_insert_id by done. eauto.
    + destruct (_ <? _); [|done]. intros [= <-]. simpl. eauto.
  - unfold main_step. destruct (pc w) as [i|i|o e]; [| |done].
    + destruct (_ <? _); [destruct (promises w !! i); [|done]|];
        intros [= <-]; simpl; eauto.
    + destruct (_ <? _); [destruct (errc w) as [|[e|] rest]; [done| |]|];
        intros [= <-]; simpl; eauto.
  - intros [= <-]. simpl. eauto.
Qed.

Lemma run_published sched w w1 :
  Forall promise_inv (heap w) → run sched w = Some w1 →
  ∀ p P, heap w !! p = Some P → published P →
    ∃ P1, heap w1 !! p = Some P1 ∧ published P1 ∧ stored P1 = stored P.
Proof.
  revert w. induction sched as [|ev sched IH]; intros w Hh; simpl.
  { intros [= <-]. eauto. }
  destruct (step ev w) as [| |w2] eqn:Hs; [by apply IH | done |].
  destruct (step_published _ _ _ Hh Hs) as [Hh2 Hkeep].
  intros Hrun p P Hp Hpub.
  destruct (Hkeep p P Hp Hpub) as (P2 & Hp2 & Hpub2 & Hst2).
  destruct (IH w2 Hh2 Hrun p P2 Hp2 Hpub2) as (P1 & ? & ? & Hst1).
  exists P1. rewrite Hst1, Hst2. done.
Qed.

(** C7.  Multi-reader consistency: once a promise is published, every
    [Await] on it under a live context returns the stored value and the
    stored error, now and after any further run of the system (settling
    goroutines, other waiters reading the same promise, [All] itself), for
    every choice [select] can make; and any two [Await] calls that return
    under a live context, one before and one after such a run, return the
    same pair. *)
Theorem Await_multi_reader (w w1 : world) sched p P P1 :
  Forall promise_inv (heap w) →
  run sched w = Some w1 →
  heap w !! p = Some P → heap w1 !! p = Some P1 →
  (published P →
   ∀ b b1, fst (Promise_Await Live b P) = Some (value (stored P), err (stored P)) ∧
           fst (Promise_Await Live b1 P1) = Some (value (stored P), err (stored P))) ∧
  (∀ b b1 r r1, fst (Promise_Await Live b P) = Some r →
                fst (Promise_Await Live b1 P1) = Some r1 → r = r1).
Proof.
  intros Hh Hrun Hp Hp1.
  assert (published P →
          published P1 ∧ stored P1 = stored P) as Hkeep.
  { intros Hpub.
    destruct (run_published _ _ _ Hh Hrun p P Hp Hpub) as (P2 & Hp2 & ? & ?).
    rewrite Hp1 in Hp2. by injection Hp2 as <-. }
  split.
  - intros Hpub b b1. destruct (Hkeep Hpub) as [Hpub1 Hst].
    split; [by apply Promise_Await_published|].
    rewrite <- Hst. by apply Promise_Await_published.
  - intros b b1 r r1 Hr Hr1.
    apply Promise_Await_live in Hr as [Hpub ->].
    apply Promise_Await_live in Hr1 as [_ ->].
    destruct (Hkeep Hpub) as [_ ->]. done.
Qed.

(** ** [All] over promises that all succeed *)

Lemma yields_cell_step k c c1 r :
  cell_step k c = Step c1 → yields (Backed c) r → yields (Backed c1) r.
Proof.
  intros Hk (rt & Hr & Hnp). exists rt. split; [done|].
  by eapply np_inv_step.
Qed.

Lemma yields_published p r : yields p r → published p → stored p = r.
Proof.
  destruct p as [c|rp0]; simpl; [|done].
  intros (rt & <- & Hnp) Hd.
  destruct (np_inv_closed (Some rt) c Hnp Hd) as (rt1 & [= <-] & ->). done.
Qed.

Lemma yields_promise_inv p r : yields p r → promise_inv p.
Proof.
  destruct p as [c|rp0]; simpl; [|done].
  intros (rt & _ & Hnp). by apply (np_inv_cell_inv (Some rt)).
Qed.

Lemma all_exited ws i x :
  nexited ws = length ws → ws !! i = Some x → x = Exited.
Proof.
  intros Hn Hi.
  pose proof (tally_full exited ws i x exited_le Hn Hi) as Hx.
  by destruct x.
Qed.

Lemma success_init h ps vs :
  Forall2 (λ p v, ∃ P, h !! p = Some P ∧ yields P (result_value v)) ps vs →
  success_inv vs (All_init Live h ps).
Proof.
  intros Hy. split; [done|]. split; [by apply Forall_nil|]. split; [|done].
  intros i x Hi. simpl in Hi. apply lookup_replicate in Hi as [-> _]. done.
Qed.

Lemma success_step vs ev w w1 :
  world_inv w → success_inv vs w →
  match ev with EvParentDone _ => False | _ => True end →
  step ev w = Step w1 → success_inv vs w1.
Proof.
  intros [Hh Hp Ho Hw Ha Hsp Hst Hc] (Hy & He & Hwt & Hpcs) Hev.
  destruct ev as [q k|i b| |e]; simpl; [| | |done].
  - (* a settling goroutine moves *)
    unfold work_step. destruct (heap w !! q) as [[c|r]|] eqn:Hq; try done.
    destruct (cell_step k c) as [| |c1] eqn:Hk; try done.
    intros [= <-]. split; [|done]. simpl.
    eapply Forall2_impl; [exact Hy|]. simpl.
    intros p v (P & HP & HyP). destruct (decide (q = p)) as [->|Hne].
    + rewrite Hq in HP. injection HP as <-. exists (Backed c1).
      rewrite list_lookup_insert_eq by (by eapply lookup_lt_Some).
      split; [done|]. by eapply yields_cell_step.
    + exists P. by rewrite list_lookup_insert_ne.
  - unfold waiter_step.
    destruct (waiters w !! i) as [[|p|e|]|] eqn:Hi; try done.
    + (* an Await returns *)
      destruct (heap w !! p) as [P|] eqn:HP; [|done].
      assert (dctx w = Live) as Hlive.
      { destruct (pc w); try done. destruct Hpcs as (_ & _ & Hall).
        by pose proof (all_exited _ _ _ Hall Hi). }
      rewrite Hlive.
      pose proof (Promise_Await_unchanged Live b P) as Hsame.
      destruct (Promise_Await Live b P) as [[[v e]|] P1] eqn:HA; [|done].
      simpl in Hsame. subst P1. intros [= <-].
      pose proof (Ha i p Hi) as Hpi.
      destruct (Forall2_lookup_l _ _ _ _ _ Hy Hpi) as (vi & Hvi & P0 & HP0 & HyP).
      rewrite HP in HP0. injection HP0 as <-.
      assert (fst (Promise_Await Live b P) = Some (v, e)) as Hfst by (by rewrite HA).
      apply Promise_Await_live in Hfst as [Hpub Hve].
      rewrite (yields_published _ _ HyP Hpub) in Hve. simpl in Hve.
      injection Hve as -> ->.
      assert (i < length (out w)) as Hlt.
      { rewrite Ho, <- Hw. by eapply lookup_lt_Some. }
      split; simpl; [by rewrite list_insert_id|]. split; [done|]. split.
      * intros j x Hj. destruct (decide (i = j)) as [->|Hne].
        -- rewrite list_lookup_insert_eq in Hj by (by eapply lookup_lt_Some).
           injection Hj as <-. rewrite list_lookup_insert_eq by done. done.
        -- rewrite list_lookup_insert_ne in Hj by done.
           rewrite list_lookup_insert_ne by done. by apply Hwt.
      * destruct (pc w); try done. destruct Hpcs as (_ & _ & Hall).
        by pose proof (all_exited _ _ _ Hall Hi).
    + (* a send *)
      destruct (_ <? _); [|done]. intros [= <-].
      pose proof (Hwt i _ Hi) as [-> Hout]. simpl in *.
      split; simpl; [done|]. split.
      { apply Forall_app. split; [done|]. by apply Forall_singleton. }
      split.
      * intros j x Hj. destruct (decide (i = j)) as [->|Hne].
        -- rewrite list_lookup_insert_eq in Hj by (by eapply lookup_lt_Some).
           by injection Hj as <-.
        -- rewrite list_lookup_insert_ne in Hj by done. by apply Hwt.
      * destruct (pc w); try done. destruct Hpcs as (_ & _ & Hall).
        by pose proof (all_exited _ _ _ Hall Hi).
  - (* All's own goroutine *)
    unfold main_step. destruct (pc w) as [i|i|o e] eqn:Hpc; [| |done].
    + destruct (Nat.ltb_spec i (length (out w))) as [Hlt|Hge].
      * destruct (promises w !! i) as [p|]; [|done]. intros [= <-].
        split; simpl; [done|]. split; [done|]. split; [|done].
        intros j x Hj. destruct (decide (i = j)) as [->|Hne].
        -- rewrite list_lookup_insert_eq in Hj by lia. by injection Hj as <-.
        -- rewrite list_lookup_insert_ne in Hj by done. by apply Hwt.
      * intros [= <-]. by split.
    + simpl in Hc.
      destruct (Nat.ltb_spec i (length (out w))) as [Hlt|Hge].
      * destruct (errc w) as [|[e|] rest] eqn:Herr; [done| |].
        -- by apply Forall_cons in He as [? _].
        -- intros [= <-]. apply Forall_cons in He as [_ He]. by split.
      * intros [= <-]. pose proof (nexited_le (waiters w)) as Hle.
        assert (nexited (waiters w) = length (waiters w)) as Hall by lia.
        split; simpl; [done|]. split; [done|]. split; [done|].
        split; [|done]. f_equal. apply list_eq. intros j.
        destruct (waiters w !! j) as [x|] eqn:Hj.
        -- pose proof (all_exited _ _ _ Hall Hj) as ->. by apply (Hwt j Exited).
        -- apply lookup_ge_None in Hj.
           pose proof (Forall2_length _ _ _ Hy) as Hlen.
           rewrite (lookup_ge_None_2 (out w)) by lia.
           rewrite (lookup_ge_None_2 vs) by lia. done.
Qed.

Lemma success_run vs sched w :
  world_inv w → success_inv vs w → undisturbed sched →
  ∃ w1, run sched w = Some w1 ∧ world_inv w1 ∧ success_inv vs w1.
Proof.
  revert w. induction sched as [|ev sched IH]; intros w Hinv Hsucc Hund; simpl;
    [eauto|].
  apply Forall_cons in Hund as [Hev Hund].
  pose proof (step_inv ev w Hinv) as Hstep.
  destruct (step ev w) as [| |w2] eqn:Hs; [by apply IH | done |].
  apply IH; [done | | done]. by apply (success_step vs ev w).
Qed.

Lemma tally_not_full {A} (f : A → nat) (l : list A) :
  (∀ x, f x ≤ 1) → tally f l < length l → ∃ i x, l !! i = Some x ∧ f x = 0.
Proof.
  intros Hf. induction l as [|z l IH]; simpl; [lia|].
  rewrite tally_cons. intros Hlt.
  destruct (f z) as [|n] eqn:Hz.
  - by exists 0, z.
  - pose proof (Hf z). destruct IH as (i & x & Hi & Hx); [lia|].
    by exists (S i), x.
Qed.

(** As long as [All] has not returned some goroutine can move: there is
    no deadlock. *)
Lemma success_progress vs w :
  world_inv w → success_inv vs w → (∀ o e, pc w ≠ Returned o e) →
  ∃ ev w1, match ev with EvParentDone _ => False | _ => True end ∧
           step ev w = Step w1.
Proof.
  intros Hinv (Hy & He & Hwt & Hpcs) Hnr.
  pose proof Hinv as [Hh Hp Ho Hw Ha Hsp Hst Hc].
  destruct (pc w) as [i|i|o e] eqn:Hpc; [| |by destruct (Hnr o e)].
  - exists EvMain. simpl. unfold main_step. rewrite Hpc.
    destruct (Nat.ltb_spec i (length (out w))) as [Hlt|Hge]; [|eauto].
    destruct (lookup_lt_is_Some_2 (promises w) i) as [p Hpi]; [lia|].
    rewrite Hpi. eauto.
  - simpl in *.
    destruct (Nat.ltb_spec i (length (out w))) as [Hlt|Hge];
      [|exists EvMain; simpl; unfold main_step; rewrite Hpc;
        apply Nat.ltb_ge in Hge; rewrite Hge; eauto].
    destruct (errc w) as [|e rest] eqn:Herr;
      [|exists EvMain; simpl; unfold main_step; rewrite Hpc, Herr;
        apply Nat.ltb_lt in Hlt; rewrite Hlt;
        apply Forall_cons in He as [-> _]; eauto].
    simpl in Hc.
    destruct (tally_not_full exited (waiters w) exited_le) as (j & x & Hj & Hx).
    { unfold nexited in Hc. lia. }
    pose proof (lookup_lt_Some _ _ _ Hj) as Hjlt.
    destruct x as [|p|e|]; simpl in Hx; [| | |done].
    + apply (Hst j) in Hj. destruct Hj as [Hj _]. specialize (Hj eq_refl). lia.
    + pose proof (Ha j p Hj) as Hpj.
      destruct (Forall2_lookup_l _ _ _ _ _ Hy Hpj) as (v & Hv & P & HP & HyP).
      destruct P as [c|r].
      * destruct HyP as (rt & Hrt & [->|[->|[->|[->| ->]]]]).
        1-4: exists (EvWork p 0); simpl; unfold work_step; rewrite HP; cbn; eauto.
        exists (EvWaiter j false). simpl. unfold waiter_step.
        rewrite Hj, HP, Hpcs. cbn. eauto.
      * exists (EvWaiter j false). simpl. unfold waiter_step.
        rewrite Hj, HP. cbn. eauto.
    + destruct (yielded_error_sent w j e false Hinv Hj) as (w1 & Hs & _).
      by exists (EvWaiter j false), w1.
Qed.

Lemma stage_step_fuel g s g1 s1 :
  stage_step g s = Step (g1, s1) → stage_fuel g1 < stage_fuel g.
Proof.
  destruct g as [[ret|]|r|r| |]; simpl; try done.
  - intros [= <- <-]. simpl. lia.
  - destruct (cas_settled s) as [[|] s2]; intros [= <- <-]; simpl; lia.
  - intros [= <- <-]. simpl. lia.
  - destruct (close_done s); [|done]. intros [= <- <-]. simpl. lia.
Qed.

Lemma cell_step_fuel k c c1 :
  cell_step k c = Step c1 →
  promise_fuel (Backed c1) < promise_fuel (Backed c).
Proof.
  unfold cell_step. destruct (calls c !! k) as [g|] eqn:Hk; [|done].
  destruct (stage_step g (obj c)) as [| |[g1 s1]] eqn:Hg; try done.
  intros [= <-]. simpl.
  pose proof (tally_insert stage_fuel (calls c) k g g1 Hk).
  pose proof (stage_step_fuel _ _ _ _ Hg). lia.
Qed.

(** Every action uses up fuel, so a run comes to rest after at most
    [fuel] actions. *)
Lemma step_fuel ev w w1 :
  world_inv w → match ev with EvParentDone _ => False | _ => True end →
  step ev w = Step w1 → fuel w1 < fuel w.
Proof.
  intros [Hh Hp Ho Hw Ha Hsp Hst Hc] Hev. unfold fuel.
  destruct ev as [q k|i b| |e]; simpl; [| | |done].
  - unfold work_step. destruct (heap w !! q) as [[c|r]|] eqn:Hq; try done.
    destruct (cell_step k c) as [| |c1] eqn:Hk; try done.
    intros [= <-]. simpl.
    pose proof (tally_insert promise_fuel (heap w) q _ (Backed c1) Hq).
    pose proof (cell_step_fuel _ _ _ Hk). lia.
  - unfold waiter_step.
    destruct (waiters w !! i) as [[|p|e|]|] eqn:Hi; try done.
    + destruct (heap w !! p) as [P|] eqn:HP; [|done].
      pose proof (Promise_Await_unchanged (dctx w) b P) as Hsame.
      destruct (Promise_Await (dctx w) b P) as [[[v e]|] P1]; [|done].
      simpl in Hsame. subst P1. intros [= <-]. simpl.
      rewrite list_insert_id by done.
      pose proof (tally_insert waiter_fuel (waiters w) i _ (Sending e) Hi).
      simpl in *. lia.
    + destruct (_ <? _); [|done]. intros [= <-]. simpl.
      pose proof (tally_insert waiter_fuel (waiters w) i _ Exited Hi).
      simpl in *. lia.
  - unfold main_step. destruct (pc w) as [i|i|o e] eqn:Hpc; [| |done].
    + destruct (Nat.ltb_spec i (length (out w))) as [Hlt|Hge].
      * destruct (promises w !! i) as [p|]; [|done]. intros [= <-]. simpl.
        destruct (lookup_lt_is_Some_2 (waiters w) i) as [x Hx]; [lia|].
        pose proof (proj2 (Hst i x Hx) (le_n _)) as ->.
        pose proof (tally_insert waiter_fuel (waiters w) i _ (Awaiting p) Hx).
        simpl in *. lia.
      * intros [= <-]. simpl. lia.
    + destruct (Nat.ltb_spec i (length (out w))) as [Hlt|Hge].
      * destruct (errc w) as [|[e|] rest]; [done| |]; intros [= <-]; simpl; lia.
      * intros [= <-]. simpl. lia.
Qed.

(** From every state of such a run [All] can still return, and what it
    returns is the values in slot order. *)
Lemma success_returns vs w :
  world_inv w → success_inv vs w →
  ∃ sched w1, undisturbed sched ∧ run sched w = Some w1 ∧
              pc w1 = Returned (Some vs) None.
Proof.
  remember (fuel w) as n eqn:Hn. revert w Hn.
  induction n as [n IH] using lt_wf_ind. intros w -> Hinv Hsucc.
  destruct (pc w) as [i|i|o e] eqn:Hpc.
  3: { exists [], w. split; [by apply Forall_nil|]. split; [done|].
       destruct Hsucc as (_ & _ & _ & Hret). rewrite Hpc in Hret.
       destruct Hret as (-> & -> & _). done. }
  all: destruct (success_progress vs w Hinv Hsucc) as (ev & w2 & Hev & Hs);
    [by rewrite Hpc|].
  all: pose proof (step_inv ev w Hinv) as Hinv2; rewrite Hs in Hinv2.
  all: pose proof (success_step vs ev w w2 Hinv Hsucc Hev Hs) as Hsucc2.
  all: destruct (IH (fuel w2) (step_fuel _ _ _ Hinv Hev Hs) w2 eq_refl Hinv2 Hsucc2)
         as (sched & w1 & Hund & Hrun & Hret).
  all: exists (ev :: sched), w1; split; [by apply Forall_cons|].
  all: split; [|done]; simpl; by rewrite Hs.
Qed.

Lemma actions_bounded sched w :
  world_inv w → undisturbed sched → actions sched w ≤ fuel w.
Proof.
  revert w. induction sched as [|ev sched IH]; intros w Hinv Hund; simpl; [lia|].
  apply Forall_cons in Hund as [Hev Hund].
  pose proof (step_inv ev w Hinv) as Hstep.
  destruct (step ev w) as [| |w2] eqn:Hs; [by apply IH | done |].
  pose proof (step_fuel ev w w2 Hinv Hev Hs).
  specialize (IH w2 Hstep Hund). lia.
Qed.

(** C3, amended.  [All] over promises that all settle successfully,
    promise [i] with value [vs !! i], under a caller's context that does
    not fire: no schedule makes the run panic; whenever [All] has returned
    it has returned exactly [vs], slot [i] holding the value of promise
    [i] whatever the order in which the promises settled and the waiters
    ran, with a nil error; the run cannot come to rest before [All] has
    returned; from every state of the run [All] can still return; and the
    goroutines move at most [fuel] times in all, so [All] does return
    when the scheduler keeps running goroutines that can move. *)
Theorem All_success_in_order h ps vs sched :
  Forall promise_inv h →
  Forall2 (λ p v, ∃ P, h !! p = Some P ∧ yields P (result_value v)) ps vs →
  undisturbed sched →
  ∃ w, run sched (All_init Live h ps) = Some w ∧
    (∀ o e, pc w = Returned o e → o = Some vs ∧ e = None) ∧
    (quiescent w → pc w = Returned (Some vs) None) ∧
    (∃ more w1, undisturbed more ∧ run more w = Some w1 ∧
                pc w1 = Returned (Some vs) None) ∧
    actions sched (All_init Live h ps) ≤ fuel (All_init Live h ps).
Proof.
  intros Hh Hy Hund.
  assert (Forall (λ p, p < length h) ps) as Hps.
  { apply Forall_lookup. intros i p Hi.
    destruct (Forall2_lookup_l _ _ _ _ _ Hy Hi) as (v & _ & P & HP & _).
    by eapply lookup_lt_Some. }
  pose proof (world_inv_init Live h ps Hh Hps) as Hinit.
  destruct (success_run vs sched _ Hinit (success_init h ps vs Hy) Hund)
    as (w & Hrun & Hinv & Hsucc).
  exists w. split; [done|].
  assert (∀ o e, pc w = Returned o e → o = Some vs ∧ e = None) as Hsafe.
  { intros o e Hpc. destruct Hsucc as (_ & _ & _ & Hret).
    rewrite Hpc in Hret. by destruct Hret as (-> & -> & _). }
  split; [done|]. split; [|split; [by apply success_returns|by apply actions_bounded]].
  intros Hq. destruct (pc w) as [i|i|o e] eqn:Hpc.
  3: { by destruct (Hsafe o e eq_refl) as [-> ->]. }
  all: destruct (success_progress vs w Hinv Hsucc) as (ev & w2 & Hev & Hs);
    [by rewrite Hpc|].
  all: specialize (Hq ev); destruct ev; try done; by rewrite Hs in Hq.
Qed.

(** ** What a nil error from [All] guarantees *)

Lemma Promise_Await_nil ctx b P v :
  fst (Promise_Await ctx b P) = Some (v, None) →
  published P ∧ v = value (stored P) ∧ err (stored P) = None.
Proof.
  destruct P as [[s gs]|r]; simpl.
  - unfold Await. destruct ctx, (s_done s), b; simpl; try done;
      by intros [= <- <-].
  - by intros [= <- <-].
Qed.

Lemma slot_ok_step ev w w1 p ov :
  Forall promise_inv (heap w) → step ev w = Step w1 →
  slot_ok (heap w) p ov → slot_ok (heap w1) p ov.
Proof.
  intros Hh Hs (P & HP & Hpub & Herr & Hov).
  destruct (step_published ev w w1 Hh Hs) as [_ Hkeep].
  destruct (Hkeep p P HP Hpub) as (P1 & HP1 & Hpub1 & Hst).
  exists P1. rewrite Hst. done.
Qed.

Lemma sound_inv_init ctx h ps : sound_inv (All_init ctx h ps).
Proof.
  intros _ i x p Hi Hx. simpl in Hi.
  apply lookup_replicate in Hi as [-> _]. by destruct Hx.
Qed.


Lemma sound_work_step q k w w1 :
  world_inv w → sound_inv w → work_step q k w = Step w1 → sound_inv w1.
Proof.
  intros Hinv Hsound Hs.
  assert (∀ p ov, slot_ok (heap w) p ov → slot_ok (heap w1) p ov) as Hslot.
  { intros p ov. apply (slot_ok_step (EvWork q k)); [apply Hinv | exact Hs]. }
  unfold work_step in Hs.
  destruct (heap w !! q) as [[c|r]|]; try done.
  destruct (cell_step k c); try done. injection Hs as <-.
  unfold sound_inv in *. simpl in *.
  destruct (pc w) as [i0|i0|[vals|] e0]; [| | |done].
  - intros Hnil i x p Hi Hx Hpi. by apply Hslot, (Hsound Hnil i x p).
  - intros Hnil i x p Hi Hx Hpi. by apply Hslot, (Hsound Hnil i x p).
  - destruct Hsound as (-> & Hlen & Hall). split; [done|]. split; [done|].
    intros i p Hi. by apply Hslot, Hall.
Qed.

Lemma sound_waiter_step i b w w1 :
  world_inv w → sound_inv w → waiter_step i b w = Step w1 → sound_inv w1.
Proof.
  intros Hinv Hsound Hs.
  pose proof Hinv as [Hh Hp Ho Hw Ha Hsp Hst Hc].
  unfold waiter_step in Hs.
  destruct (waiters w !! i) as [[|p0|e0|]|] eqn:Hi; try done.
  - (* an Await returns *)
    destruct (heap w !! p0) as [P|] eqn:HP; [|done].
    pose proof (Promise_Await_unchanged (dctx w) b P) as Hsame.
    destruct (Promise_Await (dctx w) b P) as [[[v e]|] P1] eqn:HA; [|done].
    simpl in Hsame. subst P1. injection Hs as <-.
    unfold sound_inv in *. simpl in *.
    rewrite (list_insert_id (heap w) p0 P) by done.
    destruct (pc w) as [i0|i0|[vals|] e0]; [| |done|done].
    all: intros Hnil i1 x p Hi1 Hx Hpi.
    all: destruct (decide (i = i1)) as [->|Hne];
      [|rewrite list_lookup_insert_ne in Hi1 by done;
        rewrite list_lookup_insert_ne by done; by apply (Hsound Hnil i1 x p)].
    all: rewrite list_lookup_insert_eq in Hi1 by (by eapply lookup_lt_Some).
    all: injection Hi1 as <-; destruct Hx as [?|[= ->]]; [done|].
    all: rewrite (Ha i1 p0 Hi) in Hpi; injection Hpi as <-.
    all: assert (fst (Promise_Await (dctx w) b P) = Some (v, None)) as Hfst
           by (by rewrite HA).
    all: apply Promise_Await_nil in Hfst as (Hpub & -> & Herr).
    all: exists P; rewrite list_lookup_insert_eq
           by (rewrite Ho, <- Hw; by eapply lookup_lt_Some); done.
  - (* a send *)
    destruct (_ <? _); [|done]. injection Hs as <-.
    unfold sound_inv in *. simpl in *.
    destruct (pc w) as [i0|i0|[vals|] e1]; [| |done|done].
    all: intros Hnil i1 x p Hi1 Hx Hpi.
    all: apply Forall_app in Hnil as [Hnil Htl].
    all: apply Forall_singleton in Htl as ->.
    all: destruct (decide (i = i1)) as [->|Hne];
      [ apply (Hsound Hnil i1 (Sending None) p); [done | by right | done]
      | rewrite list_lookup_insert_ne in Hi1 by done;
        by apply (Hsound Hnil i1 x p) ].
Qed.

Lemma sound_main_step w w1 :
  world_inv w → sound_inv w → main_step w = Step w1 → sound_inv w1.
Proof.
  intros Hinv Hsound Hs.
  pose proof Hinv as [Hh Hp Ho Hw Ha Hsp Hst Hc].
  unfold main_step in Hs. unfold sound_inv in *.
  destruct (pc w) as [i0|i0|o0 e0] eqn:Hpc; [| |done].
  - destruct (_ <? _); [destruct (promises w !! i0) as [p0|] eqn:Hp0; [|done]|];
      injection Hs as <-; simpl; intros Hnil i1 x p Hi1 Hx Hpi.
    + destruct (decide (i0 = i1)) as [->|Hne].
      * rewrite list_lookup_insert_eq in Hi1
          by (rewrite Hw; by eapply lookup_lt_Some).
        injection Hi1 as <-. by destruct Hx.
      * rewrite list_lookup_insert_ne in Hi1 by done.
        by apply (Hsound Hnil i1 x p).
    + by apply (Hsound Hnil i1 x p).
  - simpl in Hc. destruct (Nat.ltb_spec i0 (length (out w))) as [Hlt|Hge].
    + destruct (errc w) as [|[e|] rest] eqn:Herr; [done| |];
        injection Hs as <-; simpl; [done|].
      intros Hnil i1 x p Hi1 Hx Hpi.
      apply (Hsound (Forall_cons_2 _ _ _ eq_refl Hnil) i1 x p); done.
    + injection Hs as <-. simpl.
      pose proof (nexited_le (waiters w)) as Hle.
      assert (nexited (waiters w) = length (waiters w)) as Hall by lia.
      assert (Forall (λ e : error, e = None) (errc w)) as Hnil.
      { destruct (errc w); [by apply Forall_nil|]. simpl in Hc. lia. }
      split; [done|]. split; [done|]. intros i p Hi.
      destruct (lookup_lt_is_Some_2 (waiters w) i) as [x Hx].
      { rewrite Hw. by eapply lookup_lt_Some. }
      pose proof (all_exited _ _ _ Hall Hx) as ->.
      apply (Hsound Hnil i Exited p); [done | by left | done].
Qed.

Lemma sound_inv_step ev w w1 :
  world_inv w → sound_inv w → step ev w = Step w1 → sound_inv w1.
Proof.
  intros Hinv Hsound. destruct ev as [q k|i b| |e]; simpl.
  - by apply sound_work_step.
  - by apply sound_waiter_step.
  - by apply sound_main_step.
  - intros [= <-]. unfold sound_inv in *. simpl. done.
Qed.

Lemma sound_inv_run sched w w1 :
  world_inv w → sound_inv w → run sched w = Some w1 → sound_inv w1.
Proof.
  revert w. induction sched as [|ev sched IH]; intros w Hinv Hsound; simpl.
  { by intros [= <-]. }
  pose proof (step_inv ev w Hinv) as Hstep.
  destruct (step ev w) as [| |w2] eqn:Hs; [by apply IH | done |].
  apply IH; [done|]. by apply (sound_inv_step ev w).
Qed.

Lemma run_promises sched w w1 : run sched w = Some w1 → promises w1 = promises w.
Proof.
  revert w. induction sched as [|ev sched IH]; intros w; simpl.
  { by intros [= <-]. }
  destruct (step ev w) as [| |w2] eqn:Hs; [by apply IH | done |].
  intros Hrun. rewrite (IH _ Hrun). by eapply step_promises.
Qed.

(** X6.  A value sequence returned by [All] can be trusted, whatever the
    cancellation token did and however the goroutines were scheduled: the
    error returned with it is nil, it has one slot per promise, and slot
    [i] holds the stored value of promise [i], which is published and
    holds a nil error. *)
Theorem All_values_sound ctx h ps sched w vals e :
  Forall promise_inv h → Forall (λ p, p < length h) ps →
  run sched (All_init ctx h ps) = Some w →
  pc w = Returned (Some vals) e →
  e = None ∧ length vals = length ps ∧
  ∀ i p, ps !! i = Some p →
    ∃ P, heap w !! p = Some P ∧ published P ∧ err (stored P) = None ∧
         vals !! i = Some (value (stored P)).
Proof.
  intros Hh Hps Hrun Hpc.
  pose proof (sound_inv_run sched _ w (world_inv_init ctx h ps Hh Hps)
                (sound_inv_init ctx h ps) Hrun) as Hsound.
  unfold sound_inv in Hsound. rewrite Hpc in Hsound.
  rewrite (run_promises _ _ _ Hrun) in Hsound. simpl in Hsound.
  destruct Hsound as (-> & Hlen & Hall). split; [done|]. split; [done|].
  intros i p Hi. exact (Hall i p Hi).
Qed.

(** ** Cancellation lets everything finish *)

Lemma Promise_Await_fired ctx b P :
  ctx_Done ctx = Closed → ∃ r, fst (Promise_Await ctx b P) = Some r.
Proof.
  intros Hf. destruct P as [[s gs]|r]; simpl; [|eauto].
  unfold Await. rewrite Hf. simpl. destruct (ready (s_done s)), b; simpl; eauto.
Qed.

Lemma waiter_can_move w j x :
  world_inv w → ctx_Done (dctx w) = Closed →
  waiters w !! j = Some x → exited x = 0 → x ≠ NotStarted →
  ∃ w1, step (EvWaiter j false) w = Step w1.
Proof.
  intros Hinv Hf Hj Hx Hns.
  destruct x as [|p|e|]; [done| | |done].
  - pose proof Hinv as [Hh Hp Ho Hw Ha Hsp Hst Hc].
    pose proof (Ha j p Hj) as Hpj.
    assert (p < length (heap w)) as Hlt
      by (by apply (Forall_lookup_1 _ _ _ _ Hp Hpj)).
    destruct (lookup_lt_is_Some_2 _ _ Hlt) as [P HP].
    destruct (Promise_Await_fired (dctx w) false P Hf) as [[v e] Hr].
    simpl. unfold waiter_step. rewrite Hj, HP.
    destruct (Promise_Await (dctx w) false P) as [o P1]. simpl in Hr.
    subst o. eauto.
  - destruct (yielded_error_sent w j e false Hinv Hj) as (w1 & Hs & _). eauto.
Qed.

Lemma fired_progress w :
  world_inv w → ctx_Done (dctx w) = Closed →
  (∀ o e, pc w ≠ Returned o e) ∨ nexited (waiters w) < length (waiters w) →
  ∃ ev w1, match ev with EvMain | EvWaiter _ _ => True | _ => False end ∧
           step ev w = Step w1.
Proof.
  intros Hinv Hf Hopen.
  pose proof Hinv as [Hh Hp Ho Hw Ha Hsp Hst Hc].
  assert (spawned (pc w) (length (promises w)) = length (promises w) →
          nexited (waiters w) < length (waiters w) →
          ∃ ev w1, match ev with EvMain | EvWaiter _ _ => True | _ => False end ∧
                   step ev w = Step w1) as Hwaiter.
  { intros Hall Hlt.
    destruct (tally_not_full exited (waiters w) exited_le Hlt) as (j & x & Hj & Hx).
    destruct (waiter_can_move w j x Hinv Hf Hj Hx) as [w1 Hs].
    - intros ->. pose proof (lookup_lt_Some _ _ _ Hj) as Hjlt.
      apply (Hst j) in Hj. destruct Hj as [Hj _]. specialize (Hj eq_refl). lia.
    - by exists (EvWaiter j false), w1. }
  destruct (pc w) as [i|i|o e] eqn:Hpc.
  - exists EvMain. simpl. unfold main_step. rewrite Hpc.
    destruct (Nat.ltb_spec i (length (out w))) as [Hlt|Hge]; [|eauto].
    destruct (lookup_lt_is_Some_2 (promises w) i) as [p Hpi]; [lia|].
    rewrite Hpi. eauto.
  - simpl in Hc.
    destruct (Nat.ltb_spec i (length (out w))) as [Hlt|Hge];
      [|exists EvMain; simpl; unfold main_step; rewrite Hpc;
        apply Nat.ltb_ge in Hge; rewrite Hge; eauto].
    destruct (errc w) as [|e rest] eqn:Herr;
      [|exists EvMain; simpl; unfold main_step; rewrite Hpc, Herr;
        apply Nat.ltb_lt in Hlt; rewrite Hlt; destruct e; eauto].
    apply Hwaiter; [done|]. simpl in Hc. lia.
  - destruct Hopen as [Hnr|Hlt]; [by destruct (Hnr o e)|]. by apply Hwaiter.
Qed.

Lemma finishes_once_fired w :
  world_inv w → ctx_Done (dctx w) = Closed →
  ∃ sched w1, own_events sched ∧ length sched ≤ fuel w ∧
              run sched w = Some w1 ∧ finished w1.
Proof.
  remember (fuel w) as n eqn:Hn. revert w Hn.
  induction n as [n IH] using lt_wf_ind. intros w -> Hinv Hf.
  assert ((∀ o e, pc w ≠ Returned o e) ∨
          nexited (waiters w) < length (waiters w) ∨ finished w) as [Hopen|[Hopen|Hfin]].
  { destruct (pc w) as [i|i|o e] eqn:Hpc; [by left..|].
    pose proof (nexited_le (waiters w)).
    destruct (decide (nexited (waiters w) = length (waiters w))) as [Heq|Hne].
    - right. right. split; [|done]. rewrite Hpc. eauto.
    - right. left. lia. }
  3: { exists [], w. split; [by apply Forall_nil|]. split; [simpl; lia|]. done. }
  all: destruct (fired_progress w Hinv Hf) as (ev & w2 & Hev & Hs); [by auto|].
  all: pose proof (step_inv ev w Hinv) as Hinv2; rewrite Hs in Hinv2.
  all: assert (fuel w2 < fuel w) as Hlt by
         (apply (step_fuel ev w w2 Hinv); [by destruct ev | done]).
  all: destruct (IH (fuel w2) Hlt w2 eq_refl Hinv2 (fired_step _ _ _ Hf Hs))
         as (sched & w1 & Hown & Hlen & Hrun & Hfin).
  all: exists (ev :: sched), w1; split; [by apply Forall_cons|].
  all: split; [simpl; lia|]; split; [|done]; simpl; by rewrite Hs.
Qed.

(** X7.  Once the derived context has fired, or [All] has returned (which
    cancels it), [All] and all the waiters it started can run to their
    end by themselves, in at most [fuel] actions, without any promise
    having to settle: [All] cannot hang on slow promises after a
    cancellation, and it leaves no waiter behind that could not exit. *)
Theorem All_finishes_once_cancelled ctx h ps pre w :
  Forall promise_inv h → Forall (λ p, p < length h) ps →
  run pre (All_init ctx h ps) = Some w →
  ctx_Done (dctx w) = Closed ∨ (∃ o e, pc w = Returned o e) →
  ∃ sched w1, own_events sched ∧ length sched ≤ fuel w ∧
              run sched w = Some w1 ∧
              (∃ o e, pc w1 = Returned o e) ∧
              nexited (waiters w1) = length ps.
Proof.
  intros Hh Hps Hpre Hc.
  destruct (run_inv pre _ (world_inv_init ctx h ps Hh Hps)) as (w0 & Hrun & Hinv).
  rewrite Hpre in Hrun. injection Hrun as <-.
  assert (ctx_Done (dctx w) = Closed) as Hf.
  { destruct Hc as [?|(o & e & Hpc)]; [done|].
    by destruct (All_return_shape ctx h ps pre w o e Hpre Hpc). }
  destruct (finishes_once_fired w Hinv Hf) as (sched & w1 & Hown & Hlen & Hrun & Hret & Hall).
  exists sched, w1. split; [done|]. split; [done|]. split; [done|].
  split; [done|].
  destruct (run_inv sched w Hinv) as (w2 & Hrun2 & Hinv2).
  rewrite Hrun in Hrun2. injection Hrun2 as <-.
  rewrite Hall, (inv_waiters _ Hinv2), (run_promises _ _ _ Hrun),
    (run_promises _ _ _ Hpre). done.
Qed.

(** ** [All] over promises that never settle *)

Lemma never_settles_stuck k : cell_step k (NewPromise None) = Wait.
Proof. by destruct k. Qed.

Lemma pending_inv_init (Q : goerr → Prop) ctx h ps :
  Forall (λ p, h !! p = Some (Backed (NewPromise None))) ps →
  (∀ e0, ctx = Fired e0 → Q e0) →
  pending_inv Q (All_init ctx h ps).
Proof.
  intros Hps HQ. split; [|split; [|split; [|split]]]; simpl; try done.
  - intros i p Hi. by apply (Forall_lookup_1 _ _ _ _ Hps Hi).
  - intros i e Hi. by apply lookup_replicate in Hi as [? _].
Qed.

Lemma pending_inv_step (Q : goerr → Prop) ev w w1 :
  world_inv w → promises w ≠ [] → pending_inv Q w →
  (∀ e, ev = EvParentDone e → Q e) →
  step ev w = Step w1 → pending_inv Q w1.
Proof.
  intros Hinv Hne (Hnever & Herrc & Hsend & HQ & Hpcs) Hev Hs.
  pose proof Hinv as [Hh Hp Ho Hw Ha Hsp Hst Hc].
  destruct ev as [q k|i b| |e]; simpl in Hs.
  - (* a settling goroutine of some other promise *)
    unfold work_step in Hs.
    destruct (heap w !! q) as [[c|r]|] eqn:Hq; try done.
    destruct (cell_step k c) as [| |c1] eqn:Hk; try done.
    injection Hs as <-. split; [|done]. simpl.
    intros i p Hi. pose proof (Hnever i p Hi) as HP.
    destruct (decide (q = p)) as [->|Hqp]; [|by rewrite list_lookup_insert_ne].
    rewrite Hq in HP. injection HP as ->.
    by rewrite never_settles_stuck in Hk.
  - unfold waiter_step in Hs.
    destruct (waiters w !! i) as [[|p|e|]|] eqn:Hi; try done.
    + (* an Await returns: only through the context *)
      rewrite (Hnever i p (Ha i p Hi)) in Hs. simpl in Hs.
      unfold Await in Hs. simpl in Hs.
      destruct (dctx w) as [|e0] eqn:Hd; simpl in Hs; [done|].
      injection Hs as <-.
      split; [|split; [|split; [|split]]]; simpl; try done.
      * intros j p' Hj. rewrite list_insert_id; [by apply (Hnever j)|].
        by apply (Hnever i), Ha.
      * intros j e Hj. destruct (decide (i = j)) as [->|Hij].
        -- rewrite list_lookup_insert_eq in Hj by (by eapply lookup_lt_Some).
           by injection Hj as <-.
        -- rewrite list_lookup_insert_ne in Hj by done. by apply (Hsend j).
    + (* a send *)
      destruct (_ <? _); [|done]. injection Hs as <-.
      split; [|split; [|split; [|split]]]; simpl; try done.
      * apply Forall_app. split; [done|]. apply Forall_singleton.
        by apply (Hsend i).
      * intros j e' Hj. destruct (decide (i = j)) as [->|Hij].
        -- by rewrite list_lookup_insert_eq in Hj by (by eapply lookup_lt_Some).
        -- rewrite list_lookup_insert_ne in Hj by done. by apply (Hsend j).
  - (* All's own goroutine *)
    unfold main_step in Hs.
    destruct (pc w) as [i|i|o e] eqn:Hpc; [| |done].
    + destruct (_ <? _); [destruct (promises w !! i) as [p|]; [|done]|];
        injection Hs as <-;
        (split; [|split; [|split; [|split]]]); simpl; try done.
      intros j e Hj. destruct (decide (i = j)) as [->|Hij].
      * destruct (decide (j < length (waiters w))).
        -- by rewrite list_lookup_insert_eq in Hj.
        -- rewrite list_insert_ge in Hj by lia. by apply (Hsend j).
      * rewrite list_lookup_insert_ne in Hj by done. by apply (Hsend j).
    + subst i. destruct (Nat.ltb_spec 0 (length (out w))) as [Hlt|Hge].
      * destruct (errc w) as [|[e|] rest] eqn:Herr; [done| |].
        -- injection Hs as <-. apply Forall_cons in Herrc as [[_ He] Hrest].
           destruct (dctx w) as [|e0] eqn:Hd; [done|].
           simpl in He. injection He as ->.
           split; [|split; [|split; [|split]]]; simpl; try done.
        -- apply Forall_cons in Herrc as [[? _] _]. done.
      * destruct (promises w); [done|]. simpl in *. lia.
  - (* the caller's context fires *)
    injection Hs as <-.
    destruct (dctx w) as [|e0] eqn:Hd; simpl.
    + assert (errc w = []) as Hempty.
      { destruct (errc w) as [|e1 rest]; [done|].
        apply Forall_cons in Herrc as [[Hn He] _]. done. }
      split; [|split; [|split; [|split]]]; simpl; try done.
      * by rewrite Hempty.
      * intros j e1 Hj. by destruct (Hsend j e1 Hj) as [Hn He].
      * intros e0 [= <-]. by apply Hev.
      * destruct (pc w) as [| |o e1]; try done. by destruct Hpcs as (_ & Hn & He).
    + split; [|split; [|split; [|split]]]; simpl; try done.
Qed.

Lemma pending_inv_run (Q : goerr → Prop) sched w w1 :
  world_inv w → promises w ≠ [] → pending_inv Q w →
  (∀ e, EvParentDone e ∈ sched → Q e) →
  run sched w = Some w1 → pending_inv Q w1.
Proof.
  revert w. induction sched as [|ev sched IH]; intros w Hinv Hne Hpend HQ; simpl.
  { by intros [= <-]. }
  pose proof (step_inv ev w Hinv) as Hstep.
  destruct (step ev w) as [| |w2] eqn:Hs.
  - apply IH; try done. intros e He. apply HQ. apply elem_of_cons; by right.
  - done.
  - apply IH; try done.
    + by rewrite (step_promises _ _ _ Hs).
    + apply (pending_inv_step Q ev w); try done.
      intros e ->. apply HQ. apply elem_of_cons; by left.
    + intros e He. apply HQ. apply elem_of_cons; by right.
Qed.

(** X8.  [All] over a non-empty slice of promises whose functions never
    return: it cannot return a value sequence, and it cannot return at
    all before the caller's context has fired; what it returns is [nil]
    with the error of the caller's context, the one it was called with
    or the one it fired with during the run. *)
Theorem All_pending_returns_ctx_error ctx h ps sched w o e :
  Forall promise_inv h → ps ≠ [] →
  Forall (λ p, h !! p = Some (Backed (NewPromise None))) ps →
  run sched (All_init ctx h ps) = Some w → pc w = Returned o e →
  o = None ∧
  ∃ e0, e = Some e0 ∧ dctx w = Fired e0 ∧
        (ctx = Fired e0 ∨ EvParentDone e0 ∈ sched).
Proof.
  intros Hh Hne Hps Hrun Hpc.
  assert (Forall (λ p, p < length h) ps) as Hvalid.
  { eapply Forall_impl; [exact Hps|]. simpl. intros p Hp.
    by eapply lookup_lt_Some. }
  set (Q := λ e0, ctx = Fired e0 ∨ EvParentDone e0 ∈ sched).
  assert (pending_inv Q (All_init ctx h ps)) as Hinit.
  { apply pending_inv_init; [done|]. intros e0 He0. by left. }
  assert (∀ e1, EvParentDone e1 ∈ sched → Q e1) as Hsched.
  { intros e1 He1. by right. }
  pose proof (pending_inv_run Q sched _ w
                (world_inv_init ctx h ps Hh Hvalid) Hne Hinit Hsched Hrun)
    as (_ & _ & _ & HQ & Hret).
  rewrite Hpc in Hret. destruct Hret as (-> & Hn & He).
  split; [done|]. destruct (dctx w) as [|e0] eqn:Hd; [done|].
  exists e0. split; [done|]. split; [done|]. by apply HQ.
Qed.

(** ** [All] over promises made by [Resolve] *)

Lemma resolved_inv_step vs ev w w1 :
  world_inv w → resolved_inv vs w → step ev w = Step w1 → resolved_inv vs w1.
Proof.
  intros Hinv (Hy & Herrc & Hsend & Hret) Hs.
  pose proof Hinv as [Hh Hp Ho Hw Ha Hsp Hst Hc].
  destruct ev as [q k|i b| |e]; simpl in Hs.
  - unfold work_step in Hs.
    destruct (heap w !! q) as [[c|r]|] eqn:Hq; try done.
    destruct (cell_step k c) as [| |c1] eqn:Hk; try done.
    injection Hs as <-. split; [|done]. simpl.
    eapply Forall2_impl; [exact Hy|]. simpl. intros p v HP.
    destruct (decide (q = p)) as [->|Hqp]; [congruence|].
    by rewrite list_lookup_insert_ne.
  - unfold waiter_step in Hs.
    destruct (waiters w !! i) as [[|p|e|]|] eqn:Hi; try done.
    + destruct (Forall2_lookup_l _ _ _ _ _ Hy (Ha i p Hi)) as (v & Hv & HP).
      rewrite HP in Hs. simpl in Hs. injection Hs as <-.
      split; [|split; [|split]]; simpl; try done.
      * by rewrite list_insert_id.
      * intros j e Hj. destruct (decide (i = j)) as [->|Hij].
        -- rewrite list_lookup_insert_eq in Hj by (by eapply lookup_lt_Some).
           by injection Hj as <-.
        -- rewrite list_lookup_insert_ne in Hj by done. by apply (Hsend j).
    + destruct (_ <? _); [|done]. injection Hs as <-.
      split; [|split; [|split]]; simpl; try done.
      * apply Forall_app. split; [done|]. apply Forall_singleton.
        by apply (Hsend i).
      * intros j e' Hj. destruct (decide (i = j)) as [->|Hij].
        -- by rewrite list_lookup_insert_eq in Hj by (by eapply lookup_lt_Some).
        -- rewrite list_lookup_insert_ne in Hj by done. by apply (Hsend j).
  - unfold main_step in Hs.
    destruct (pc w) as [i|i|o e] eqn:Hpc; [| |done].
    + destruct (_ <? _); [destruct (promises w !! i) as [p|]; [|done]|];
        injection Hs as <-; (split; [|split; [|split]]); simpl; try done.
      intros j e Hj. destruct (decide (i = j)) as [->|Hij].
      * destruct (decide (j < length (waiters w))).
        -- by rewrite list_lookup_insert_eq in Hj.
        -- rewrite list_insert_ge in Hj by lia. by apply (Hsend j).
      * rewrite list_lookup_insert_ne in Hj by done. by apply (Hsend j).
    + destruct (_ <? _).
      * destruct (errc w) as [|[e|] rest] eqn:Herr; [done| |].
        -- by apply Forall_cons in Herrc as [? _].
        -- injection Hs as <-. apply Forall_cons in Herrc as [_ Hrest].
           by split.
      * injection Hs as <-. split; [|split; [|split]]; simpl; try done.
        by intros o e [= <- <-].
  - injection Hs as <-. by split.
Qed.

Lemma resolved_inv_run vs sched w :
  world_inv w → sound_inv w → resolved_inv vs w →
  ∃ w1, run sched w = Some w1 ∧ world_inv w1 ∧ sound_inv w1 ∧
        resolved_inv vs w1.
Proof.
  revert w. induction sched as [|ev sched IH]; intros w Hinv Hsound Hres; simpl;
    [eauto|].
  pose proof (step_inv ev w Hinv) as Hstep.
  destruct (step ev w) as [| |w2] eqn:Hs; [by apply IH | done |].
  apply IH; [done | by apply (sound_inv_step ev w)
             | by apply (resolved_inv_step vs ev w)].
Qed.

(** Under these invariants a return carries exactly [vs]. *)
Lemma resolved_return vs w o e :
  world_inv w → sound_inv w → resolved_inv vs w →
  pc w = Returned o e → o = Some vs ∧ e = None.
Proof.
  intros Hinv Hsound (Hy & _ & _ & Hret) Hpc.
  destruct (Hret o e Hpc) as [-> Ho]. split; [|done].
  unfold sound_inv in Hsound. rewrite Hpc in Hsound.
  destruct o as [vals|].
  - destruct Hsound as (_ & Hlen & Hall). f_equal. apply list_eq. intros i.
    pose proof (Forall2_length _ _ _ Hy) as Hlen2.
    destruct (promises w !! i) as [p|] eqn:Hi.
    + destruct (Hall i p Hi) as (P & HP & _ & _ & ->).
      destruct (Forall2_lookup_l _ _ _ _ _ Hy Hi) as (v & -> & HP2).
      rewrite HP in HP2. by injection HP2 as ->.
    + apply lookup_ge_None in Hi.
      rewrite (lookup_ge_None_2 vals) by lia.
      rewrite (lookup_ge_None_2 vs) by lia. done.
  - done.
Qed.

Lemma resolved_progress vs w :
  world_inv w → resolved_inv vs w → (∀ o e, pc w ≠ Returned o e) →
  ∃ ev w1, match ev with EvMain | EvWaiter _ _ => True | _ => False end ∧
           step ev w = Step w1.
Proof.
  intros Hinv (Hy & Herrc & Hsend & Hret) Hnr.
  pose proof Hinv as [Hh Hp Ho Hw Ha Hsp Hst Hc].
  destruct (pc w) as [i|i|o e] eqn:Hpc; [| |by destruct (Hnr o e)].
  - exists EvMain. simpl. unfold main_step. rewrite Hpc.
    destruct (Nat.ltb_spec i (length (out w))) as [Hlt|Hge]; [|eauto].
    destruct (lookup_lt_is_Some_2 (promises w) i) as [p Hpi]; [lia|].
    rewrite Hpi. eauto.
  - simpl in Hc.
    destruct (Nat.ltb_spec i (length (out w))) as [Hlt|Hge];
      [|exists EvMain; simpl; unfold main_step; rewrite Hpc;
        apply Nat.ltb_ge in Hge; rewrite Hge; eauto].
    destruct (errc w) as [|e rest] eqn:Herr;
      [|exists EvMain; simpl; unfold main_step; rewrite Hpc, Herr;
        apply Nat.ltb_lt in Hlt; rewrite Hlt; destruct e; eauto].
    destruct (tally_not_full exited (waiters w) exited_le) as (j & x & Hj & Hx).
    { unfold nexited in Hc. simpl in Hc. lia. }
    pose proof (lookup_lt_Some _ _ _ Hj) as Hjlt.
    destruct x as [|p|e|]; simpl in Hx; [| | |done].
    + apply (Hst j) in Hj. destruct Hj as [Hj _]. specialize (Hj eq_refl).
      simpl in Hj. lia.
    + destruct (Forall2_lookup_l _ _ _ _ _ Hy (Ha j p Hj)) as (v & Hv & HP).
      exists (EvWaiter j false). simpl. unfold waiter_step.
      rewrite Hj, HP. simpl. eauto.
    + destruct (yielded_error_sent w j e false Hinv Hj) as (w1 & Hs & _).
      by exists (EvWaiter j false), w1.
Qed.

Lemma resolved_returns vs w :
  world_inv w → sound_inv w → resolved_inv vs w →
  ∃ sched w1, own_events sched ∧ run sched w = Some w1 ∧
              pc w1 = Returned (Some vs) None.
Proof.
  remember (fuel w) as n eqn:Hn. revert w Hn.
  induction n as [n IH] using lt_wf_ind. intros w -> Hinv Hsound Hres.
  destruct (pc w) as [i|i|o e] eqn:Hpc.
  3: { exists [], w. split; [by apply Forall_nil|]. split; [done|].
       by destruct (resolved_return vs w o e Hinv Hsound Hres Hpc) as [-> ->]. }
  all: destruct (resolved_progress vs w Hinv Hres) as (ev & w2 & Hev & Hs);
    [by rewrite Hpc|].
  all: pose proof (step_inv ev w Hinv) as Hinv2; rewrite Hs in Hinv2.
  all: assert (fuel w2 < fuel w) as Hlt by
         (apply (step_fuel ev w w2 Hinv); [by destruct ev | done]).
  all: destruct (IH (fuel w2) Hlt w2 eq_refl Hinv2
                   (sound_inv_step ev w w2 Hinv Hsound Hs)
                   (resolved_inv_step vs ev w w2 Hinv Hres Hs))
         as (sched & w1 & Hown & Hrun & Hfin).
  all: exists (ev :: sched), w1; split; [by apply Forall_cons|].
  all: split; [|done]; simpl; by rewrite Hs.
Qed.

(** X9.  [All] over promises that were all made by [Resolve] does not depend
    on the cancellation token: whatever the caller's context is or
    becomes, and however the goroutines are scheduled, the run does not
    panic, [All] can only return the values in slot order with a nil
    error, and from every state it returns them by its own and its
    waiters' actions alone. *)
Theorem All_of_resolved ctx h ps vs sched :
  Forall promise_inv h →
  Forall2 (λ p v, h !! p = Some (Pre (Resolve v))) ps vs →
  ∃ w, run sched (All_init ctx h ps) = Some w ∧
    (∀ o e, pc w = Returned o e → o = Some vs ∧ e = None) ∧
    (∃ more w1, own_events more ∧ run more w = Some w1 ∧
                pc w1 = Returned (Some vs) None).
Proof.
  intros Hh Hy.
  assert (Forall (λ p, p < length h) ps) as Hps.
  { apply Forall_lookup. intros i p Hi.
    destruct (Forall2_lookup_l _ _ _ _ _ Hy Hi) as (v & _ & HP).
    by eapply lookup_lt_Some. }
  assert (resolved_inv vs (All_init ctx h ps)) as Hinit.
  { split; [done|]. split; [by apply Forall_nil|]. split; [|done].
    intros i e Hi. simpl in Hi. by apply lookup_replicate in Hi as [? _]. }
  destruct (resolved_inv_run vs sched _ (world_inv_init ctx h ps Hh Hps)
              (sound_inv_init ctx h ps) Hinit) as (w & Hrun & Hinv & Hsound & Hres).
  exists w. split; [done|]. split.
  - intros o e. by apply resolved_return.
  - by apply resolved_returns.
Qed.

(** ** What [Settled] does tell *)

Lemma settled_step k c c1 :
  cell_step k c = Step c1 → s_settled (obj c) = 1%Z → s_settled (obj c1) = 1%Z.
Proof.
  unfold cell_step. destruct (calls c !! k) as [g|]; [|done].
  destruct g as [[ret|]|r|r| |]; simpl; try done.
  - by intros [= <-].
  - unfold cas_settled. intros Hs H1. rewrite H1 in Hs. simpl in Hs.
    by injection Hs as <-.
  - by intros [= <-].
  - unfold close_done. destruct (close (s_done (obj c))); [|done].
    by intros [= <-].
Qed.

Lemma settled_run sched c c1 :
  cell_run sched c = Some c1 → s_settled (obj c) = 1%Z →
  s_settled (obj c1) = 1%Z.
Proof.
  revert c. induction sched as [|k sched IH]; intros c; simpl.
  { by intros [= <-]. }
  destruct (cell_step k c) as [| |c2] eqn:Hk; [by apply IH | done |].
  intros Hrun H1. apply (IH c2 Hrun). by apply (settled_step k c).
Qed.

(** X2.  [Settled] is reliable in one direction, in every state a promise can
    be in: when an [Await] under a live context returns, [Settled]
    answers true in that state and in every later one, and the promise
    itself is not touched again. *)
Theorem Settled_once_Await_returned c0 sched c b r :
  cell_inv c0 → cell_run sched c0 = Some c →
  fst (Await Live b (obj c)) = Some r →
  Settled (obj c) = true ∧
  ∀ later c1, cell_run later c = Some c1 →
              Settled (obj c1) = true ∧ obj c1 = obj c.
Proof.
  intros Hinv0 Hrun Hr.
  destruct (cell_run_inv sched c0 Hinv0) as (c' & Hrun' & Hinv).
  rewrite Hrun in Hrun'. injection Hrun' as <-.
  assert (s_done (obj c) = Closed) as Hd.
  { unfold Await in Hr. simpl in Hr. by destruct (s_done (obj c)). }
  pose proof (done_closed_Settled c Hinv Hd) as Hset.
  split; [done|]. intros later c1 Hlater.
  split; [|by apply (cell_run_closed later c c1)].
  unfold Settled in *. apply Z.eqb_eq in Hset. apply Z.eqb_eq.
  by apply (settled_run later c c1).
Qed.

Lemma tally_pos {A} (f : A → nat) (l : list A) :
  1 ≤ tally f l → ∃ k x, l !! k = Some x ∧ 1 ≤ f x.
Proof.
  induction l as [|z l IH]; [unfold tally; simpl; lia|].
  rewrite tally_cons. intros Hle.
  destruct (f z) as [|n] eqn:Hz.
  - destruct IH as (k & x & Hk & Hx); [lia|]. by exists (S k), x.
  - exists 0, z. split; [done | lia].
Qed.

(** X3.  When [Settled] answers true the completion signal is published or
    about to be: the goroutine that won the swap cannot be blocked, and
    after at most two more of its actions [done] is closed. *)
Theorem Settled_publishes_soon c :
  cell_inv c → Settled (obj c) = true →
  ∃ sched c1, length sched ≤ 2 ∧ cell_run sched c = Some c1 ∧
              s_done (obj c1) = Closed ∧ s_settled (obj c1) = 1%Z.
Proof.
  unfold cell_inv, Settled. intros Hinv Hset. apply Z.eqb_eq in Hset.
  destruct (s_done (obj c)) eqn:Hd.
  - destruct Hinv as [[Hz _]|[_ Hw]]; [lia|].
    destruct (tally_pos winning (calls c)) as (k & g & Hk & Hg).
    { unfold winners in Hw. lia. }
    destruct g as [ret|r|r| |]; simpl in Hg; try lia.
    + exists [k; k]. eexists. split; [simpl; lia|]. simpl.
      unfold cell_step at 1. rewrite Hk. simpl.
      unfold cell_step. simpl.
      rewrite list_lookup_insert_eq by (by eapply lookup_lt_Some). simpl.
      unfold close_done. simpl. rewrite Hd. simpl. done.
    + exists [k]. eexists. split; [simpl; lia|]. simpl.
      unfold cell_step. rewrite Hk. simpl.
      unfold close_done. rewrite Hd. simpl. done.
  - exists [], c. split; [simpl; lia|]. done.
Qed.

(** ** What cannot go wrong in [All] *)

(** X4.  Over well-formed promise objects and non-nil promises, no schedule
    and no behaviour of the caller's context makes a run of [All] panic
    (no index out of range, no nil promise, no second close of a channel);
    the channel never holds more than [len(promises)] errors; and a
    waiter that has its result sends it at its next turn, also after
    [All] has returned, so none is left blocked on the channel. *)
Theorem All_never_panics ctx h ps sched :
  Forall promise_inv h → Forall (λ p, p < length h) ps →
  ∃ w, run sched (All_init ctx h ps) = Some w ∧
       length (errc w) ≤ length ps ∧ length (out w) = length ps ∧
       ∀ j e b, waiters w !! j = Some (Sending e) →
         ∃ w1, step (EvWaiter j b) w = Step w1 ∧ errc w1 = errc w ++ [e].
Proof.
  intros Hh Hps.
  destruct (run_inv sched _ (world_inv_init ctx h ps Hh Hps)) as (w & Hrun & Hinv).
  exists w. split; [done|].
  pose proof (run_promises _ _ _ Hrun) as Hprom. simpl in Hprom.
  pose proof Hinv as [_ _ Ho Hw _ _ _ Hc].
  pose proof (nexited_le (waiters w)) as Hle.
  split; [destruct (pc w); rewrite <- Hprom; lia|].
  split; [by rewrite Ho, Hprom|].
  intros j e b Hj.
  destruct (yielded_error_sent w j e b Hinv Hj) as (w1 & Hs & Herrc & _).
  eauto.
Qed.

(** X5.  Whatever [All] returns and on whichever path, the derived context is
    cancelled by then (the deferred [cancel]), and the value slice is nil
    exactly when the error is not: never values together with an error,
    never neither. *)
Theorem All_return_cancels ctx h ps sched w o e :
  run sched (All_init ctx h ps) = Some w → pc w = Returned o e →
  ctx_Done (dctx w) = Closed ∧ (o = None ↔ e ≠ None).
Proof.
  intros Hrun. revert o e.
  assert (∀ o e, pc (All_init ctx h ps) = Returned o e →
            ctx_Done (dctx (All_init ctx h ps)) = Closed ∧
            (o = None ↔ e ≠ None)) as Hinit by done.
  revert Hinit Hrun. generalize (All_init ctx h ps).
  induction sched as [|ev sched IH]; intros w0 H0; simpl.
  - by intros [= <-].
  - destruct (step ev w0) as [| |w2] eqn:Hs; [by apply IH | done |].
    apply IH. by apply (step_return_shape ev w0).
Qed.

End Promise.

(** * Concrete runs

    The scenarios of the repository's tests, with [T := int] modelled as
    [Z], and instances of the theorems above. *)

(** TestAll, first part: three promises settling at different times. *)
Example TestAll_values :
  ∃ w, run Z 0%Z
         [EvMain; EvMain; EvMain; EvMain;
          EvWork 2 0; EvWork 2 0; EvWork 2 0; EvWork 2 0; EvWaiter 2 true;
          EvWork 0 0; EvWork 0 0; EvWork 0 0; EvWork 0 0;
          EvWaiter 2 true; EvWaiter 0 true; EvWaiter 0 true;
          EvWork 1 0; EvWork 1 0; EvWork 1 0; EvWork 1 0;
          EvWaiter 1 true; EvWaiter 1 true;
          EvMain; EvMain; EvMain; EvMain]
         (All_init Z 0%Z Live
            [Backed Z (NewPromise Z 0%Z (Some (42%Z, None)));
             Backed Z (NewPromise Z 0%Z (Some (43%Z, None)));
             Backed Z (NewPromise Z 0%Z (Some (44%Z, None)))]
            [0; 1; 2]) = Some w ∧
       pc Z w = Returned Z (Some [42%Z; 43%Z; 44%Z]) None.
Proof. eexists. split; [vm_compute; reflexivity | reflexivity]. Qed.

(** TestAll, second part: the second promise fails. *)
Example TestAll_error :
  ∃ w, run Z 0%Z
         [EvMain; EvMain; EvMain;
          EvWork 0 0; EvWork 0 0; EvWork 0 0; EvWork 0 0;
          EvWaiter 0 true; EvWaiter 0 true; EvMain;
          EvWork 1 0; EvWork 1 0; EvWork 1 0; EvWork 1 0;
          EvWaiter 1 true; EvWaiter 1 true; EvMain]
         (All_init Z 0%Z Live
            [Backed Z (NewPromise Z 0%Z (Some (42%Z, None)));
             Backed Z (NewPromise Z 0%Z
                         (Some (0%Z, Some (errors_New "doh!"%string))))]
            [0; 1]) = Some w ∧
       pc Z w = Returned Z None (Some (errors_New "doh!"%string)) ∧
       dctx Z w = Fired Canceled.
Proof. eexists. split; [vm_compute; reflexivity|]. split; reflexivity. Qed.

(** TestNewPromise, third part: the deadline passes while the function is
    still running. *)
Example TestNewPromise_timeout :
  Await Z 0%Z (Fired DeadlineExceeded) true (obj Z (NewPromise Z 0%Z (Some (7%Z, None))))
    = (Some (0%Z, Some DeadlineExceeded), fresh Z 0%Z) ∧
  Settled Z (fresh Z 0%Z) = false.
Proof. split; reflexivity. Qed.

Lemma settle_exactly_once_witness :
  (s_result Z (mkSync Z 1 Closed (result_value Z 42%Z)) = result_value Z 42%Z ∧
   Settled Z (mkSync Z 1 Closed (result_value Z 42%Z)) = true ∧
   s_done Z (mkSync Z 1 Closed (result_value Z 42%Z)) = Closed) ∧
  (∀ later, apply_calls Z 0%Z later (mkSync Z 1 Closed (result_value Z 42%Z))
            = Some (mkSync Z 1 Closed (result_value Z 42%Z))) ∧
  (∀ later sched,
     ∃ c1, cell_run Z 0%Z sched
             {| obj := mkSync Z 1 Closed (result_value Z 42%Z);
                calls := AtCas Z ∘ call_result Z 0%Z <$> later |} = Some c1 ∧
           obj Z c1 = mkSync Z 1 Closed (result_value Z 42%Z)).
Proof.
  apply (settle_exactly_once Z 0%Z (DoResolve Z 42%Z) (fresh Z 0%Z));
    reflexivity.
Defined.

Lemma Await_cancelled_leaves_pending_witness :
  Await Z 0%Z (Fired DeadlineExceeded) true (fresh Z 0%Z)
    = (Some (0%Z, Some DeadlineExceeded), fresh Z 0%Z) ∧
  Settled Z (snd (Await Z 0%Z (Fired DeadlineExceeded) true (fresh Z 0%Z))) = false ∧
  (∀ ctx b1 s1, snd (Await Z 0%Z ctx b1 s1) = s1).
Proof.
  apply (Await_cancelled_leaves_pending Z 0%Z (fresh Z 0%Z) DeadlineExceeded true);
    reflexivity.
Defined.

Lemma Await_cancel_returns_zero_witness :
  fst (Await Z 0%Z (Fired Canceled) false (mkSync Z 1 Closed (result_value Z 42%Z)))
    = Some (0%Z, ctx_Err (Fired Canceled)) ∧
  ctx_Err (Fired Canceled) ≠ None.
Proof.
  destruct (Await_cancel_returns_zero Z 0%Z
              (mkSync Z 1 Closed (result_value Z 42%Z)) (Fired Canceled) false)
    as (Hval & Herr & _).
  - reflexivity.
  - right. reflexivity.
  - split; [exact Hval | exact Herr].
Defined.

Lemma Await_multi_reader_witness :
  fst (Promise_Await Z 0%Z Live true
         (Backed Z {| obj := mkSync Z 1 Closed (result_value Z 42%Z);
                      calls := [Finished Z] |}))
    = Some (42%Z, None) ∧
  fst (Promise_Await Z 0%Z Live false
         (Backed Z {| obj := mkSync Z 1 Closed (result_value Z 42%Z);
                      calls := [Finished Z] |}))
    = Some (42%Z, None).
Proof.
  refine (proj1
    (Await_multi_reader Z 0%Z
       (All_init Z 0%Z Live
          [Pre Z (Resolve Z 5%Z);
           Backed Z {| obj := mkSync Z 1 Closed (result_value Z 42%Z);
                       calls := [Finished Z] |}]
          [1; 1])
       _ [EvMain; EvMain; EvWork 1 0; EvWaiter 0 true; EvWaiter 1 false] 1
       _ _ _ _ _ _) _ true false).
  - repeat constructor.
  - vm_compute. reflexivity.
  - reflexivity.
  - reflexivity.
  - reflexivity.
Defined.

Lemma All_short_circuit_witness :
  ∃ w1,
    run Z 0%Z [EvMain; EvWaiter 0 true; EvMain]
      {| heap := [Backed Z {| obj := mkSync Z 1 Closed (result_value Z 42%Z);
                              calls := [Finished Z] |};
                  Backed Z {| obj := mkSync Z 1 Closed
                                       (result_err Z 0%Z (Some (errors_New "doh!")));
                              calls := [Finished Z] |};
                  Backed Z (NewPromise Z 0%Z None)];
         promises := [0; 1; 2]; dctx := Live; out := [42%Z; 0%Z; 0%Z];
         errc := [None; Some (errors_New "doh!")];
         waiters := [Exited; Exited; Awaiting 2];
         pc := Receiving Z 0 |} = Some w1 ∧
    pc Z w1 = Returned Z None (Some (errors_New "doh!")) ∧
    ctx_Done (dctx Z w1) = Closed.
Proof.
  destruct (All_short_circuit Z 0%Z Live
              [Backed Z (NewPromise Z 0%Z (Some (42%Z, None)));
               Backed Z (NewPromise Z 0%Z (Some (0%Z, Some (errors_New "doh!"))));
               Backed Z (NewPromise Z 0%Z None)]
              [0; 1; 2]
              [EvMain; EvMain; EvMain; EvMain;
               EvWork 0 0; EvWork 0 0; EvWork 0 0; EvWork 0 0;
               EvWaiter 0 true; EvWaiter 0 true;
               EvWork 1 0; EvWork 1 0; EvWork 1 0; EvWork 1 0;
               EvWaiter 1 true; EvWaiter 1 true; EvWork 2 0; EvWaiter 2 true]
              {| heap := [Backed Z {| obj := mkSync Z 1 Closed (result_value Z 42%Z);
                                      calls := [Finished Z] |};
                          Backed Z {| obj := mkSync Z 1 Closed
                                               (result_err Z 0%Z (Some (errors_New "doh!")));
                                      calls := [Finished Z] |};
                          Backed Z (NewPromise Z 0%Z None)];
                 promises := [0; 1; 2]; dctx := Live; out := [42%Z; 0%Z; 0%Z];
                 errc := [None; Some (errors_New "doh!")];
                 waiters := [Exited; Exited; Awaiting 2];
                 pc := Receiving Z 0 |}
              1 (errors_New "doh!") [] [EvMain; EvWaiter 0 true; EvMain])
    as (w1 & Hrun & Hlive & _).
  - repeat constructor.
  - repeat constructor.
  - vm_compute. reflexivity.
  - intros o e1. discriminate.
  - reflexivity.
  - exists w1. split; [exact Hrun|]. apply Hlive. vm_compute. lia.
Defined.

Lemma All_success_in_order_witness :
  ∃ w,
    run Z 0%Z
      [EvMain; EvMain; EvMain; EvWaiter 1 true; EvWaiter 1 true;
       EvWork 0 0; EvWork 0 0; EvWaiter 0 true; EvWork 0 0; EvWork 0 0;
       EvWaiter 0 true; EvWaiter 0 true; EvMain; EvMain; EvMain]
      (All_init Z 0%Z Live
         [Backed Z (NewPromise Z 0%Z (Some (42%Z, None)));
          Pre Z (Resolve Z 43%Z)]
         [0; 1]) = Some w ∧
    (∀ o e, pc Z w = Returned Z o e → o = Some [42%Z; 43%Z] ∧ e = None).
Proof.
  destruct (All_success_in_order Z 0%Z
              [Backed Z (NewPromise Z 0%Z (Some (42%Z, None)));
               Pre Z (Resolve Z 43%Z)]
              [0; 1] [42%Z; 43%Z]
              [EvMain; EvMain; EvMain; EvWaiter 1 true; EvWaiter 1 true;
               EvWork 0 0; EvWork 0 0; EvWaiter 0 true; EvWork 0 0; EvWork 0 0;
               EvWaiter 0 true; EvWaiter 0 true; EvMain; EvMain; EvMain])
    as (w & Hrun & Hsafe & _).
  - repeat constructor.
  - constructor; [|constructor; [|constructor]].
    + eexists. split; [reflexivity|]. exists (42%Z, None). split; [reflexivity|].
      left. reflexivity.
    + eexists. split; reflexivity.
  - repeat constructor.
  - exists w. split; [exact Hrun | exact Hsafe].
Defined.

(** C3 as the specification states it fails when the caller's context has
    fired: the promise is pending when its waiter reads it, the waiter
    takes the [ctx.Done()] case, and [All] returns [(nil, Canceled)],
    although the promise then settles successfully with 42. *)
Lemma All_cancelled_context_counterexample :
  Forall2 (λ p v, ∃ P, [Backed Z (NewPromise Z 0%Z (Some (42%Z, None)))] !! p = Some P ∧
                       yields Z 0%Z P (result_value Z v)) [0] [42%Z] ∧
  ∃ w,
    run Z 0%Z
      [EvMain; EvMain; EvWaiter 0 true; EvWaiter 0 true; EvMain;
       EvWork 0 0; EvWork 0 0; EvWork 0 0; EvWork 0 0]
      (All_init Z 0%Z (Fired Canceled)
         [Backed Z (NewPromise Z 0%Z (Some (42%Z, None)))] [0]) = Some w ∧
    pc Z w = Returned Z None (Some Canceled) ∧
    heap Z w = [Backed Z {| obj := mkSync Z 1 Closed (result_value Z 42%Z);
                            calls := [Finished Z] |}].
Proof.
  split.
  - constructor; [|constructor].
    eexists. split; [reflexivity|]. exists (42%Z, None). split; [reflexivity|].
    left. reflexivity.
  - eexists. split; [vm_compute; reflexivity|]. split; reflexivity.
Qed.

(** ** Instances of the further properties *)

Lemma Settled_once_Await_returned_witness :
  Settled Z (mkSync Z 1 Closed (result_value Z 42%Z)) = true ∧
  ∀ later c1,
    cell_run Z 0%Z later
      {| obj := mkSync Z 1 Closed (result_value Z 42%Z);
         calls := [Finished Z] |} = Some c1 →
    Settled Z (obj Z c1) = true ∧
    obj Z c1 = mkSync Z 1 Closed (result_value Z 42%Z).
Proof.
  apply (Settled_once_Await_returned Z 0%Z
           (NewPromise Z 0%Z (Some (42%Z, None))) [0; 0; 0; 0]
           {| obj := mkSync Z 1 Closed (result_value Z 42%Z);
              calls := [Finished Z] |}
           true (42%Z, None)).
  - left. split; reflexivity.
  - reflexivity.
  - reflexivity.
Defined.

Lemma Settled_publishes_soon_witness :
  ∃ sched c1,
    length sched ≤ 2 ∧
    cell_run Z 0%Z sched
      {| obj := mkSync Z 1 Open (result_zero Z 0%Z);
         calls := [AtStore Z (result_value Z 42%Z)] |} = Some c1 ∧
    s_done Z (obj Z c1) = Closed ∧ s_settled Z (obj Z c1) = 1%Z.
Proof.
  apply (Settled_publishes_soon Z 0%Z
           {| obj := mkSync Z 1 Open (result_zero Z 0%Z);
              calls := [AtStore Z (result_value Z 42%Z)] |}).
  - right. split; reflexivity.
  - reflexivity.
Defined.

Lemma All_never_panics_witness :
  ∃ w,
    run Z 0%Z
      [EvWork 0 0; EvMain; EvParentDone DeadlineExceeded; EvMain;
       EvWaiter 0 true; EvWork 0 0; EvMain; EvWaiter 1 false]
      (All_init Z 0%Z Live
         [Backed Z (NewPromise Z 0%Z (Some (42%Z, None)));
          Pre Z (Reject Z 0%Z (Some (errors_New "doh!")))]
         [0; 1; 0]) = Some w ∧
    length (errc Z w) ≤ 3.
Proof.
  destruct (All_never_panics Z 0%Z Live
              [Backed Z (NewPromise Z 0%Z (Some (42%Z, None)));
               Pre Z (Reject Z 0%Z (Some (errors_New "doh!")))]
              [0; 1; 0]
              [EvWork 0 0; EvMain; EvParentDone DeadlineExceeded; EvMain;
               EvWaiter 0 true; EvWork 0 0; EvMain; EvWaiter 1 false])
    as (w & Hrun & Hlen & _).
  - repeat constructor.
  - repeat constructor.
  - exists w. split; [exact Hrun | exact Hlen].
Defined.

Lemma All_return_cancels_witness :
  ctx_Done (Fired Canceled) = Closed ∧
  (@None (list Z) = None ↔ Some (errors_New "doh!") ≠ None).
Proof.
  apply (All_return_cancels Z 0%Z Live
           [Pre Z (Reject Z 0%Z (Some (errors_New "doh!")))] [0]
           [EvMain; EvMain; EvWaiter 0 true; EvWaiter 0 true; EvMain]
           {| heap := [Pre Z (Reject Z 0%Z (Some (errors_New "doh!")))];
              promises := [0]; dctx := Fired Canceled; out := [0%Z];
              errc := []; waiters := [Exited];
              pc := Returned Z None (Some (errors_New "doh!")) |}
           None (Some (errors_New "doh!"))).
  - vm_compute. reflexivity.
  - reflexivity.
Defined.

Lemma All_values_sound_witness :
  @None goerr = None ∧ length [42%Z; 43%Z] = length [0; 1] ∧
  ∀ i p, [0; 1] !! i = Some p →
    ∃ P, [Backed Z {| obj := mkSync Z 1 Closed (result_value Z 42%Z);
                      calls := [Finished Z] |};
          Pre Z (Resolve Z 43%Z)] !! p = Some P ∧
         published Z P ∧ err Z (stored Z P) = None ∧
         [42%Z; 43%Z] !! i = Some (value Z (stored Z P)).
Proof.
  apply (All_values_sound Z 0%Z (Fired Canceled)
           [Backed Z (NewPromise Z 0%Z (Some (42%Z, None)));
            Pre Z (Resolve Z 43%Z)]
           [0; 1]
           [EvWork 0 0; EvWork 0 0; EvWork 0 0; EvWork 0 0;
            EvMain; EvMain; EvMain; EvWaiter 0 true; EvWaiter 0 true;
            EvWaiter 1 false; EvWaiter 1 false; EvMain; EvMain; EvMain]
           {| heap := [Backed Z {| obj := mkSync Z 1 Closed (result_value Z 42%Z);
                                   calls := [Finished Z] |};
                       Pre Z (Resolve Z 43%Z)];
              promises := [0; 1]; dctx := Fired Canceled;
              out := [42%Z; 43%Z]; errc := [];
              waiters := [Exited; Exited];
              pc := Returned Z (Some [42%Z; 43%Z]) None |}
           [42%Z; 43%Z] None).
  - repeat constructor.
  - repeat constructor.
  - vm_compute. reflexivity.
  - reflexivity.
Defined.

Lemma All_finishes_once_cancelled_witness :
  ∃ sched w1,
    own_events sched ∧
    run Z 0%Z sched
      {| heap := [Backed Z (NewPromise Z 0%Z None);
                  Backed Z (NewPromise Z 0%Z None)];
         promises := [0; 1]; dctx := Fired DeadlineExceeded;
         out := [0%Z; 0%Z]; errc := [];
         waiters := [Awaiting 0; NotStarted];
         pc := Spawning Z 1 |} = Some w1 ∧
    (∃ o e, pc Z w1 = Returned Z o e) ∧
    nexited (waiters Z w1) = length [0; 1].
Proof.
  destruct (All_finishes_once_cancelled Z 0%Z Live
              [Backed Z (NewPromise Z 0%Z None);
               Backed Z (NewPromise Z 0%Z None)]
              [0; 1] [EvMain; EvParentDone DeadlineExceeded]
              {| heap := [Backed Z (NewPromise Z 0%Z None);
                          Backed Z (NewPromise Z 0%Z None)];
                 promises := [0; 1]; dctx := Fired DeadlineExceeded;
                 out := [0%Z; 0%Z]; errc := [];
                 waiters := [Awaiting 0; NotStarted];
                 pc := Spawning Z 1 |})
    as (sched & w1 & Hown & _ & Hrun & Hret & Hall).
  - repeat constructor.
  - repeat constructor.
  - vm_compute. reflexivity.
  - left. reflexivity.
  - exists sched, w1. split; [exact Hown|]. split; [exact Hrun|].
    split; [exact Hret | exact Hall].
Defined.

Lemma All_pending_returns_ctx_error_witness :
  @None (list Z) = None ∧
  ∃ e0, Some DeadlineExceeded = Some e0 ∧
        Fired DeadlineExceeded = Fired e0 ∧
        (Live = Fired e0 ∨
         EvParentDone e0 ∈
           [EvMain; EvMain; EvWaiter 0 true; EvParentDone DeadlineExceeded;
            EvWaiter 0 true; EvWaiter 0 true; EvMain]).
Proof.
  apply (All_pending_returns_ctx_error Z 0%Z Live
           [Backed Z (NewPromise Z 0%Z None)] [0]
           [EvMain; EvMain; EvWaiter 0 true; EvParentDone DeadlineExceeded;
            EvWaiter 0 true; EvWaiter 0 true; EvMain]
           {| heap := [Backed Z (NewPromise Z 0%Z None)];
              promises := [0]; dctx := Fired DeadlineExceeded;
              out := [0%Z]; errc := []; waiters := [Exited];
              pc := Returned Z None (Some DeadlineExceeded) |}
           None (Some DeadlineExceeded)).
  - repeat constructor.
  - discriminate.
  - repeat constructor.
  - vm_compute. reflexivity.
  - reflexivity.
Defined.

Lemma All_of_resolved_witness :
  ∃ w,
    run Z 0%Z
      [EvMain; EvParentDone Canceled; EvMain; EvWaiter 1 false;
       EvWaiter 1 false; EvMain; EvWaiter 0 false; EvWaiter 0 false;
       EvMain; EvMain; EvMain]
      (All_init Z 0%Z Live
         [Pre Z (Resolve Z 42%Z); Pre Z (Resolve Z 43%Z)] [0; 1]) = Some w ∧
    (∀ o e, pc Z w = Returned Z o e → o = Some [42%Z; 43%Z] ∧ e = None).
Proof.
  destruct (All_of_resolved Z 0%Z Live
              [Pre Z (Resolve Z 42%Z); Pre Z (Resolve Z 43%Z)] [0; 1]
              [42%Z; 43%Z]
              [EvMain; EvParentDone Canceled; EvMain; EvWaiter 1 false;
               EvWaiter 1 false; EvMain; EvWaiter 0 false; EvWaiter 0 false;
               EvMain; EvMain; EvMain])
    as (w & Hrun & Hsafe & _).
  - repeat constructor.
  - repeat constructor.
  - exists w. split; [exact Hrun | exact Hsafe].
Defined.
